(** * Chess_Game: the adversarial search core of [chess_engine.py]

    A shallow embedding of [evaluate_board], [alpha_beta] and
    [get_best_move], and the properties of the search that the
    specification states.

    The rules engine (the [chess] package: [Board], [Move],
    [board.turn], [board.is_game_over()], [board.legal_moves],
    [board.push], [board.pop], [board.piece_map()]) is an external
    collaborator.  It is an interface here ([RulesEngine]); what the
    search relies on is stated as laws of that interface
    ([pop_push_law], [moves_law]), and a small concrete engine
    ([Toy]) instantiates it. *)

From Stdlib Require Import ZArith List Bool Lia String Ascii.
Import ListNotations.
Local Open Scope Z_scope.

Set Implicit Arguments.

(* ================================================================== *)
(** ** Outcomes of a Python call *)

(** The exceptions the modelled code can raise. *)
Inductive exn : Type :=
| IndexError   (* [random.choice] of an empty list, [pop] of an empty stack *)
| KeyError.    (* a dictionary lookup that misses *)

(** A call returns a value, raises, or exhausts the recursion budget
    (the fuel of [alpha_beta]). *)
Inductive outcome (A : Type) : Type :=
| Returns (a : A)
| Raises (e : exn)
| OutOfFuel.

Arguments Raises {A} e.
Arguments OutOfFuel {A}.

Definition obind {A B} (o : outcome A) (k : A -> outcome B) : outcome B :=
  match o with
  | Returns a => k a
  | Raises e => Raises e
  | OutOfFuel => OutOfFuel
  end.

(* ================================================================== *)
(** ** Scores

    [alpha_beta] mixes Python integers (the material sums) with the
    floats [float('inf')] and [-float('inf')].  Python compares an
    integer and an infinity exactly. *)

Inductive score : Type :=
| NegInf
| Fin (z : Z)
| PosInf.

(** [a < b] on scores. *)
Definition slt (a b : score) : bool :=
  match a, b with
  | NegInf, NegInf => false
  | NegInf, _ => true
  | Fin _, NegInf => false
  | Fin x, Fin y => x <? y
  | Fin _, PosInf => true
  | PosInf, _ => false
  end.

(** [a <= b] on scores. *)
Definition sle (a b : score) : bool :=
  match a, b with
  | NegInf, _ => true
  | Fin _, NegInf => false
  | Fin x, Fin y => x <=? y
  | Fin _, PosInf => true
  | PosInf, PosInf => true
  | PosInf, _ => false
  end.

(** Python's [max(a, b)] returns [a] unless [b > a]. *)
Definition smax (a b : score) : score := if slt a b then b else a.

(** Python's [min(a, b)] returns [a] unless [b < a]. *)
Definition smin (a b : score) : score := if slt b a then b else a.

Definition finite (s : score) : Prop := exists z, s = Fin z.

(* ================================================================== *)
(** ** Pieces, as the [chess] package has them *)

(** [chess.Color] is [bool]: [chess.WHITE = True], [chess.BLACK = False]. *)
Definition Color := bool.
Definition WHITE : Color := true.
Definition BLACK : Color := false.

Inductive PieceType : Type := PAWN | KNIGHT | BISHOP | ROOK | QUEEN | KING.

Record Piece : Type := mkPiece { piece_type : PieceType; color : Color }.

(** [chess.piece_symbol]: the lower-case letter of a piece type. *)
Definition piece_symbol (t : PieceType) : string :=
  match t with
  | PAWN => "p" | KNIGHT => "n" | BISHOP => "b"
  | ROOK => "r" | QUEEN => "q" | KING => "k"
  end%string.

Definition upper_ascii (a : ascii) : ascii :=
  let n := nat_of_ascii a in
  if (Nat.leb 97 n && Nat.leb n 122)%bool then ascii_of_nat (n - 32) else a.

Fixpoint upper (s : string) : string :=
  match s with
  | EmptyString => EmptyString
  | String a r => String (upper_ascii a) (upper r)
  end.

(** [Piece.symbol()]: upper case for White, lower case for Black. *)
Definition symbol (p : Piece) : string :=
  if color p then upper (piece_symbol (piece_type p))
  else piece_symbol (piece_type p).

(** A Python [dict] with string keys, in insertion order. *)
Fixpoint dict_get (d : list (string * Z)) (k : string) : outcome Z :=
  match d with
  | [] => Raises KeyError
  | (k', v) :: rest => if String.eqb k k' then Returns v else dict_get rest k
  end.

(* ================================================================== *)
(** ** The rules engine *)

Class RulesEngine : Type := {
  Board : Type;
  Move : Type;
  (** [board.turn] *)
  turn : Board -> Color;
  (** [board.is_game_over()] *)
  is_game_over : Board -> bool;
  (** [board.legal_moves], in enumeration order *)
  legal_moves : Board -> list Move;
  (** [board.push(move)] *)
  push : Board -> Move -> Board;
  (** [board.pop()]: raises [IndexError] on an empty move stack *)
  pop : Board -> outcome Board;
  (** [board.piece_map().items()]: square and piece, in iteration order *)
  piece_map : Board -> list (Z * Piece)
}.

(** [undo] reverses the most recent [apply] of a legal move exactly. *)
Definition pop_push_law (RE : RulesEngine) : Prop :=
  forall (b : Board) (m : Move), In m (legal_moves b) -> pop (push b m) = Returns b.

(** A position that is not game-over has a legal move (in chess, no
    legal move means checkmate or stalemate). *)
Definition moves_law (RE : RulesEngine) : Prop :=
  forall b : Board, is_game_over b = false -> legal_moves b <> [].

(* ================================================================== *)
(** ** The evaluator *)

(** The dictionary literal of [evaluate_board]. *)
Definition piece_values : list (string * Z) :=
  [ ("P", 1); ("N", 3); ("B", 3); ("R", 5); ("Q", 9); ("K", 0);
    ("p", 1); ("n", 3); ("b", 3); ("r", 5); ("q", 9); ("k", 0) ]%string.

(** The body of [for square, piece in board.piece_map().items()],
    with the running [value]. *)
Fixpoint evaluate_loop (items : list (Z * Piece)) (ai_color : Color) (value : Z)
  : outcome Z :=
  match items with
  | [] => Returns value
  | (square, piece) :: rest =>
      let symbol := symbol piece in
      if Bool.eqb (color piece) ai_color then
        obind (dict_get piece_values symbol) (fun v =>
        evaluate_loop rest ai_color (value + v))
      else
        obind (dict_get piece_values symbol) (fun v =>
        evaluate_loop rest ai_color (value - v))
  end.

Definition evaluate_board {RE : RulesEngine} (board : Board) (ai_color : Color)
  : outcome Z :=
  evaluate_loop (piece_map board) ai_color 0.

(* ================================================================== *)
(** ** The search, over the shared mutable board

    The board is one object that [push] and [pop] mutate in place: a
    computation takes the board and returns its result with the board
    it leaves behind. *)

Section Search.
Context {RE : RulesEngine}.

Definition M (A : Type) : Type := Board -> outcome (A * Board).

Definition ret {A} (a : A) : M A := fun b => Returns (a, b).

Definition bind {A B} (c : M A) (k : A -> M B) : M B :=
  fun b => match c b with
           | Returns (a, b') => k a b'
           | Raises e => Raises e
           | OutOfFuel => OutOfFuel
           end.

Definition lift {A} (o : outcome A) : M A :=
  fun b => obind o (fun a => Returns (a, b)).

Definition push_ (move : Move) : M unit := fun b => Returns (tt, push b move).

Definition pop_ : M unit := fun b => obind (pop b) (fun b' => Returns (tt, b')).

Notation "x <- c ;; k" := (bind c (fun x => k))
  (at level 61, c at next level, right associativity).
Notation "c ;;; k" := (bind c (fun _ => k))
  (at level 61, right associativity).

(** The maximizing [for move in board.legal_moves] of [alpha_beta];
    [rec alpha beta] is the recursive call at [depth - 1].  The loop
    runs over the legal moves of the board it starts on: the [chess]
    generator resumes only after the [pop] that undoes the [push] of
    the loop body. *)
Fixpoint max_loop (rec : score -> score -> M score) (beta : score)
  (moves : list Move) (max_eval alpha : score) : M score :=
  match moves with
  | [] => ret max_eval
  | move :: rest =>
      push_ move ;;;
      eval <- rec alpha beta ;;
      pop_ ;;;
      let max_eval := smax max_eval eval in
      let alpha := smax alpha eval in
      if sle beta alpha then ret max_eval
      else max_loop rec beta rest max_eval alpha
  end.

(** The minimizing loop. *)
Fixpoint min_loop (rec : score -> score -> M score) (alpha : score)
  (moves : list Move) (min_eval beta : score) : M score :=
  match moves with
  | [] => ret min_eval
  | move :: rest =>
      push_ move ;;;
      eval <- rec alpha beta ;;
      pop_ ;;;
      let min_eval := smin min_eval eval in
      let beta := smin beta eval in
      if sle beta alpha then ret min_eval
      else min_loop rec alpha rest min_eval beta
  end.

(** [alpha_beta(board, depth, alpha, beta, ai_color)].  [depth] is a
    Python integer; the recursion stops at [depth == 0] or at a
    game-over position, so below a negative [depth] it is bounded
    only by the game: [fuel] is the recursion budget. *)
Fixpoint alpha_beta (fuel : nat) (depth : Z) (alpha beta : score)
  (ai_color : Color) : M score :=
  fun board =>
  if (depth =? 0) || is_game_over board then
    (v <- lift (evaluate_board board ai_color) ;; ret (Fin v)) board
  else
    match fuel with
    | O => OutOfFuel
    | S fuel' =>
        if Bool.eqb (turn board) ai_color then
          max_loop (fun a b => alpha_beta fuel' (depth - 1) a b ai_color)
                   beta (legal_moves board) NegInf alpha board
        else
          min_loop (fun a b => alpha_beta fuel' (depth - 1) a b ai_color)
                   alpha (legal_moves board) PosInf beta board
    end.

(** The scoring loop of [get_best_move], with the running
    [best_value] and [best_move]; [rec] is the call of [alpha_beta]
    at [depth - 1] on the full window. *)
Fixpoint root_loop (rec : M score) (is_maximizing : bool)
  (moves : list Move) (best_value : score) (best_move : option Move)
  : M (score * option Move) :=
  match moves with
  | [] => ret (best_value, best_move)
  | move :: rest =>
      push_ move ;;;
      board_value <- rec ;;
      pop_ ;;;
      if is_maximizing && slt best_value board_value then
        root_loop rec is_maximizing rest board_value (Some move)
      else if negb is_maximizing && slt board_value best_value then
        root_loop rec is_maximizing rest board_value (Some move)
      else
        root_loop rec is_maximizing rest best_value best_move
  end.

(** [random.choice(seq)]: [rnd] is the random source; the element
    at an arbitrary index below [len(seq)], [IndexError] when empty. *)
Definition choice {A} (rnd : nat) (seq : list A) : outcome A :=
  match seq with
  | [] => Raises IndexError
  | _ => match nth_error seq (Nat.modulo rnd (List.length seq)) with
         | Some a => Returns a
         | None => Raises IndexError
         end
  end.

(** The loop of [get_best_move] with its initial [best_value] and
    [best_move]: the state in which the function leaves its loop. *)
Definition best_of_loop (fuel : nat) (depth : Z) (ai_color : Color)
  : M (score * option Move) :=
  fun board =>
  let is_maximizing := Bool.eqb (turn board) ai_color in
  let best_value := if is_maximizing then NegInf else PosInf in
  root_loop (alpha_beta fuel (depth - 1) NegInf PosInf ai_color)
            is_maximizing (legal_moves board) best_value None board.

(** [get_best_move(board, depth, ai_color)]. *)
Definition get_best_move (fuel rnd : nat) (depth : Z) (ai_color : Color)
  : M Move :=
  r <- best_of_loop fuel depth ai_color ;;
  match snd r with
  | None => fun board => (lift (choice rnd (legal_moves board))) board
  | Some best_move => ret best_move
  end.

(* ------------------------------------------------------------------ *)
(** *** The exhaustive search of the specification

    Section 4.2 without the pruning: the same base case, a running
    maximum (minimum) over every legal move, no alpha and beta.
    Section 4.3 on top of it: the root selector with the strict
    comparison.  These follow the specification's words and are what
    [alpha_beta] and [get_best_move] are compared with. *)

Fixpoint minimax_max_loop (rec : M score) (moves : list Move)
  (max_eval : score) : M score :=
  match moves with
  | [] => ret max_eval
  | move :: rest =>
      push_ move ;;;
      eval <- rec ;;
      pop_ ;;;
      minimax_max_loop rec rest (smax max_eval eval)
  end.

Fixpoint minimax_min_loop (rec : M score) (moves : list Move)
  (min_eval : score) : M score :=
  match moves with
  | [] => ret min_eval
  | move :: rest =>
      push_ move ;;;
      eval <- rec ;;
      pop_ ;;;
      minimax_min_loop rec rest (smin min_eval eval)
  end.

Fixpoint minimax (fuel : nat) (depth : Z) (ai_color : Color) : M score :=
  fun board =>
  if (depth =? 0) || is_game_over board then
    (v <- lift (evaluate_board board ai_color) ;; ret (Fin v)) board
  else
    match fuel with
    | O => OutOfFuel
    | S fuel' =>
        if Bool.eqb (turn board) ai_color then
          minimax_max_loop (minimax fuel' (depth - 1) ai_color)
                           (legal_moves board) NegInf board
        else
          minimax_min_loop (minimax fuel' (depth - 1) ai_color)
                           (legal_moves board) PosInf board
    end.

Definition minimax_best_of_loop (fuel : nat) (depth : Z) (ai_color : Color)
  : M (score * option Move) :=
  fun board =>
  let is_maximizing := Bool.eqb (turn board) ai_color in
  let best_value := if is_maximizing then NegInf else PosInf in
  root_loop (minimax fuel (depth - 1) ai_color)
            is_maximizing (legal_moves board) best_value None board.

Definition minimax_best_move (fuel rnd : nat) (depth : Z) (ai_color : Color)
  : M Move :=
  r <- minimax_best_of_loop fuel depth ai_color ;;
  match snd r with
  | None => fun board => (lift (choice rnd (legal_moves board))) board
  | Some best_move => ret best_move
  end.

(* ------------------------------------------------------------------ *)
(** *** The search with its calls of [alpha_beta] recorded

    The same code with a ghost log: every call of [alpha_beta]
    records, on entry, the window it has received and where it was
    called from.  [alpha_beta_erase] and [get_best_move_erase] below
    show that the log changes nothing. *)

(** Where a call of [alpha_beta] is made: in [get_best_move], or in
    the loop of an [alpha_beta] that was itself entered with
    [alpha], [beta] and has seen the results [evals] of its earlier
    children. *)
Inductive caller : Type :=
| FromRoot
| FromNode (alpha beta : score) (maximizing : bool) (evals : list score).

Record call : Type := mkCall {
  call_from : caller;
  call_alpha : score;
  call_beta : score
}.

(** The loops, with the results [evals] of the earlier children and
    the [log] so far.  [rec from alpha beta] is the recursive call,
    told where it is made from. *)
Fixpoint max_loop_traced (rec : caller -> score -> score -> M (score * list call))
  (alpha0 beta : score) (moves : list Move) (max_eval alpha : score)
  (evals : list score) (log : list call) : M (score * list call) :=
  match moves with
  | [] => ret (max_eval, log)
  | move :: rest =>
      push_ move ;;;
      r <- rec (FromNode alpha0 beta true evals) alpha beta ;;
      pop_ ;;;
      let eval := fst r in
      let log := log ++ snd r in
      let max_eval := smax max_eval eval in
      let alpha := smax alpha eval in
      if sle beta alpha then ret (max_eval, log)
      else max_loop_traced rec alpha0 beta rest max_eval alpha (evals ++ [eval]) log
  end.

Fixpoint min_loop_traced (rec : caller -> score -> score -> M (score * list call))
  (alpha beta0 : score) (moves : list Move) (min_eval beta : score)
  (evals : list score) (log : list call) : M (score * list call) :=
  match moves with
  | [] => ret (min_eval, log)
  | move :: rest =>
      push_ move ;;;
      r <- rec (FromNode alpha beta0 false evals) alpha beta ;;
      pop_ ;;;
      let eval := fst r in
      let log := log ++ snd r in
      let min_eval := smin min_eval eval in
      let beta := smin beta eval in
      if sle beta alpha then ret (min_eval, log)
      else min_loop_traced rec alpha beta0 rest min_eval beta (evals ++ [eval]) log
  end.

(** [alpha_beta], recording on entry the [alpha] and [beta] it has
    received and where the call comes from. *)
Fixpoint alpha_beta_traced (fuel : nat) (from : caller) (depth : Z)
  (alpha beta : score) (ai_color : Color) : M (score * list call) :=
  fun board =>
  let entry := mkCall from alpha beta in
  if (depth =? 0) || is_game_over board then
    (v <- lift (evaluate_board board ai_color) ;; ret (Fin v, [entry])) board
  else
    match fuel with
    | O => OutOfFuel
    | S fuel' =>
        if Bool.eqb (turn board) ai_color then
          max_loop_traced
            (fun f a b => alpha_beta_traced fuel' f (depth - 1) a b ai_color)
            alpha beta (legal_moves board) NegInf alpha [] [entry] board
        else
          min_loop_traced
            (fun f a b => alpha_beta_traced fuel' f (depth - 1) a b ai_color)
            alpha beta (legal_moves board) PosInf beta [] [entry] board
    end.

Fixpoint root_loop_traced (rec : caller -> score -> score -> M (score * list call))
  (is_maximizing : bool) (moves : list Move) (best_value : score)
  (best_move : option Move) (log : list call)
  : M (score * option Move * list call) :=
  match moves with
  | [] => ret (best_value, best_move, log)
  | move :: rest =>
      push_ move ;;;
      r <- rec FromRoot NegInf PosInf ;;
      pop_ ;;;
      let board_value := fst r in
      let log := log ++ snd r in
      if is_maximizing && slt best_value board_value then
        root_loop_traced rec is_maximizing rest board_value (Some move) log
      else if negb is_maximizing && slt board_value best_value then
        root_loop_traced rec is_maximizing rest board_value (Some move) log
      else
        root_loop_traced rec is_maximizing rest best_value best_move log
  end.

Definition get_best_move_traced (fuel rnd : nat) (depth : Z)
  (ai_color : Color) : M (Move * list call) :=
  fun board =>
  let is_maximizing := Bool.eqb (turn board) ai_color in
  let best_value := if is_maximizing then NegInf else PosInf in
  (r <- root_loop_traced
          (fun f a b => alpha_beta_traced fuel f (depth - 1) a b ai_color)
          is_maximizing (legal_moves board) best_value None [] ;;
   match snd (fst r) with
   | None => fun board =>
       (m <- lift (choice rnd (legal_moves board)) ;; ret (m, snd r)) board
   | Some best_move => ret (best_move, snd r)
   end) board.

(** A computation that, when it returns, leaves the board it was
    given. *)
Definition restores {A} (c : M A) : Prop :=
  forall b r b', c b = Returns (r, b') -> b' = b.

(** A computation that returns on every board and leaves it. *)
Definition total {A} (c : M A) : Prop :=
  forall b, exists r, c b = Returns (r, b).

(** What a search on the window [(alpha, beta)] that returns [r]
    tells about the exact value [v]: at or below [alpha] together,
    at or above [beta] together, equal strictly inside. *)
Definition agree (alpha beta v r : score) : Prop :=
  (sle v alpha = true -> sle r alpha = true) /\
  (sle beta v = true -> sle beta r = true) /\
  (slt alpha v = true -> slt v beta = true -> r = v).

(** The pruned child search agrees, on every open window, with the
    exhaustive child search wherever that one returns. *)
Definition child_agrees (rec_mm : M score) (rec_ab : score -> score -> M score)
  : Prop :=
  forall a bt b v b1,
    slt a bt = true -> rec_mm b = Returns (v, b1) ->
    exists r, rec_ab a bt b = Returns (r, b) /\ agree a bt v r.

(** The comparison of [get_best_move]: [new] replaces [old] on a
    strictly greater score at a maximizing root, on a strictly
    smaller one at a minimizing root. *)
Definition improves (is_maximizing : bool) (new old : score) : bool :=
  if is_maximizing then slt old new else slt new old.

(** The score [get_best_move] computes for the root move [m]. *)
Definition child_score (fuel : nat) (depth : Z) (ai_color : Color)
  (board : Board) (m : Move) : outcome score :=
  obind (alpha_beta fuel (depth - 1) NegInf PosInf ai_color (push board m))
        (fun r => Returns (fst r)).

(** The state of the selector's loop after the moves [done]: nothing
    chosen and nothing seen, or a chosen move with its score, every
    earlier move strictly worse and no later move strictly better. *)
Definition selected (rec : M score) (is_maximizing : bool) (b : Board)
  (done : list Move) (best_value : score) (best_move : option Move) : Prop :=
  match best_move with
  | None => done = [] /\ best_value = (if is_maximizing then NegInf else PosInf)
  | Some m =>
      exists pre post,
        done = pre ++ m :: post /\
        rec (push b m) = Returns (best_value, push b m) /\
        finite best_value /\
        Forall (fun m' => exists s', rec (push b m') = Returns (s', push b m') /\
                                     improves is_maximizing best_value s' = true) pre /\
        Forall (fun m' => exists s', rec (push b m') = Returns (s', push b m') /\
                                     improves is_maximizing s' best_value = false) post
  end.

(** A computation whose result, when it returns, carries a finite score. *)
Definition finite_results {A} (f : A -> score) (c : M A) : Prop :=
  forall b r b', c b = Returns (r, b') -> finite (f r).

(** Forgetting the log. *)
Definition erase {A L} (o : outcome (A * L * Board)) : outcome (A * Board) :=
  obind o (fun r => Returns (fst (fst r), snd r)).

End Search.

(** The window a recorded call was given is the caller's current
    one: the full window from [get_best_move]; in a maximizing loop
    the caller's [beta] and its [alpha] raised by the results so far;
    in a minimizing loop the caller's [alpha] and its [beta] lowered
    by the results so far. *)
Definition threaded (c : call) : Prop :=
  match call_from c with
  | FromRoot => call_alpha c = NegInf /\ call_beta c = PosInf
  | FromNode alpha beta true evals =>
      call_alpha c = fold_left smax evals alpha /\ call_beta c = beta
  | FromNode alpha beta false evals =>
      call_alpha c = alpha /\ call_beta c = fold_left smin evals beta
  end.

(** The window of a recorded call is inside its caller's. *)
Definition not_widened (c : call) : Prop :=
  match call_from c with
  | FromRoot => True
  | FromNode alpha beta _ _ =>
      sle alpha (call_alpha c) = true /\ sle (call_beta c) beta = true
  end.

(** A recorded computation whose log, when it returns, is threaded. *)
Definition logs_threaded {RE : RulesEngine} {A} (c : M (A * list call)) : Prop :=
  forall b r l b', c b = Returns (r, l, b') -> Forall threaded l.

(** A recursive call that is told the truth about its caller logs
    only threaded calls. *)
Definition rec_threaded {RE : RulesEngine}
  (rec_t : caller -> score -> score -> M (score * list call))
  : Prop :=
  forall from a bt, threaded (mkCall from a bt) -> logs_threaded (rec_t from a bt).

(* ================================================================== *)
(** ** What the evaluator computes, as the specification words it *)

(** The fixed weight of a piece type. *)
Definition weight (t : PieceType) : Z :=
  match t with
  | PAWN => 1 | KNIGHT => 3 | BISHOP => 3 | ROOK => 5 | QUEEN => 9 | KING => 0
  end.

(** The weight of a piece, added for the perspective side and
    subtracted for the other. *)
Definition signed_weight (perspective : Color) (p : Piece) : Z :=
  if Bool.eqb (color p) perspective then weight (piece_type p)
  else - weight (piece_type p).

(** The sum over the pieces on the board. *)
Definition material {RE : RulesEngine} (b : Board) (perspective : Color) : Z :=
  fold_right (fun it acc => signed_weight perspective (snd it) + acc) 0
             (piece_map b).

(* ================================================================== *)
(** ** A small rules engine

    A drop game: the two sides alternately put one piece of either
    colour on the next free square; the game is over after
    [Toy.plies] moves.  The board is its move stack. *)

Module Toy.

Definition plies : nat := 3.

Definition wP := mkPiece PAWN WHITE.
Definition bP := mkPiece PAWN BLACK.
Definition wN := mkPiece KNIGHT WHITE.
Definition bN := mkPiece KNIGHT BLACK.
Definition wB := mkPiece BISHOP WHITE.
Definition bR := mkPiece ROOK BLACK.
Definition bQ := mkPiece QUEEN BLACK.
Definition wK := mkPiece KING WHITE.

Definition over (b : list Piece) : bool := Nat.leb plies (List.length b).

Fixpoint squares (b : list Piece) : list (Z * Piece) :=
  match b with
  | [] => []
  | p :: r => (Z.of_nat (List.length r), p) :: squares r
  end.

#[export] Instance engine : RulesEngine := {
  Board := list Piece;
  Move := Piece;
  turn b := Nat.even (List.length b);
  is_game_over := over;
  legal_moves b := if over b then [] else [bP; wN; wP; bN; wB; bR; bQ; wK];
  push b m := m :: b;
  pop b := match b with [] => Raises IndexError | _ :: r => Returns r end;
  piece_map := squares
}.

End Toy.

(** The calls of [alpha_beta] in a search of depth 3 from the empty
    board of the drop game. *)
Definition toy_log : list call :=
  Eval vm_compute in
    match get_best_move_traced (RE := Toy.engine) 2 0 3 WHITE [] with
    | Returns (_, log, _) => log
    | _ => []
    end.

(* ================================================================== *)
(** ** The presentation layer

    [load_images], [draw_board], [draw_pieces] and
    [get_square_from_mouse].  The [pygame] screen is the list of
    drawing calls made on it, in order. *)

Unset Implicit Arguments.

Definition WIDTH : Z := 640.
Definition HEIGHT : Z := 640.
Definition SQ_SIZE : Z := WIDTH / 8.
Definition FPS : Z := 15.

Definition Colour : Type := (Z * Z * Z)%type.
Definition LIGHT_COLOR : Colour := (240, 217, 181).
Definition DARK_COLOR : Colour := (181, 136, 99).
Definition HIGHLIGHT_COLOR : Colour := (186, 202, 68).

(** [chess.square(file_index, rank_index)], [chess.square_file],
    [chess.square_rank], [chess.SQUARES] and Python's [range(8)]. *)
Definition square (file_index rank_index : Z) : Z := rank_index * 8 + file_index.
Definition square_file (sq : Z) : Z := Z.land sq 7.
Definition square_rank (sq : Z) : Z := Z.shiftr sq 3.
Definition SQUARES : list Z := map Z.of_nat (seq 0 64).
Definition range8 : list Z := map Z.of_nat (seq 0 8).

(** [get_square_from_mouse(pos, flip_board)]; [//] is floor division. *)
Definition get_square_from_mouse (pos : Z * Z) (flip_board : bool) : Z :=
  let '(x, y) := pos in
  let file := x / SQ_SIZE in
  let rank := 7 - (y / SQ_SIZE) in
  let file := if flip_board then 7 - file else file in
  let rank := if flip_board then 7 - rank else rank in
  square file rank.

(** [pygame.Rect(left, top, width, height)]. *)
Record Rect : Type := mkRect {
  rect_left : Z; rect_top : Z; rect_width : Z; rect_height : Z }.

(** A call on the screen: [pygame.draw.rect(screen, color, rect, width)]
    ([width] 0, the default, fills the rectangle) or
    [screen.blit(image, rect)]. *)
Inductive drawn (Image : Type) : Type :=
| Draw_rect (color : Colour) (rect : Rect) (width : Z)
| Blit (image : Image) (dest : Rect).

Arguments Draw_rect {Image} color rect width.
Arguments Blit {Image} image dest.

(** The body of the two loops of [draw_board] for one [rank] and [file]. *)
Definition draw_board_cell {Image : Type} (flip_board : bool)
  (selected_sq : option Z) (rank file : Z) : list (drawn Image) :=
  let draw_file := if negb flip_board then file else 7 - file in
  let draw_rank := if negb flip_board then rank else 7 - rank in
  let x := draw_file * SQ_SIZE in
  let y := (7 - draw_rank) * SQ_SIZE in
  let color := if (file + rank) mod 2 =? 0 then LIGHT_COLOR else DARK_COLOR in
  let rect := mkRect x y SQ_SIZE SQ_SIZE in
  Draw_rect color rect 0 ::
  match selected_sq with
  | Some selected_sq =>
      let sel_file := square_file selected_sq in
      let sel_rank := square_rank selected_sq in
      let sel_file := if flip_board then 7 - sel_file else sel_file in
      let sel_rank := if flip_board then 7 - sel_rank else sel_rank in
      if (sel_file =? file) && (sel_rank =? rank)
      then [Draw_rect HIGHLIGHT_COLOR rect 4] else []
  | None => []
  end.

(** [draw_board(screen, flip_board, selected_sq)]: what it draws. *)
Definition draw_board {Image : Type} (flip_board : bool)
  (selected_sq : option Z) : list (drawn Image) :=
  flat_map (fun rank =>
    flat_map (fun file => draw_board_cell flip_board selected_sq rank file)
             range8)
    range8.

(** A Python [dict] with string keys: lookup ([d[k]], [KeyError] on a
    miss) and assignment ([d[k] = v], in place for a key that is
    there, at the end for a new one). *)
Fixpoint dict_lookup {V : Type} (d : list (string * V)) (k : string) : outcome V :=
  match d with
  | [] => Raises KeyError
  | (k', v) :: rest => if String.eqb k k' then Returns v else dict_lookup rest k
  end.

Fixpoint dict_set {V : Type} (d : list (string * V)) (k : string) (v : V)
  : list (string * V) :=
  match d with
  | [] => [(k, v)]
  | (k', v') :: rest =>
      if String.eqb k k' then (k', v) :: rest else (k', v') :: dict_set rest k v
  end.

(** [board.piece_at(square)]: the piece [board.piece_map()] has at
    the square, [None] on an empty square. *)
Fixpoint piece_of (items : list (Z * Piece)) (sq : Z) : option Piece :=
  match items with
  | [] => None
  | (sq', piece) :: rest => if sq =? sq' then Some piece else piece_of rest sq
  end.

Definition piece_at {RE : RulesEngine} (board : Board) (sq : Z) : option Piece :=
  piece_of (piece_map board) sq.

Section Images.
Variables Surface Image : Type.
(** [pygame.image.load(path)]; [None] when it raises [pygame.error]. *)
Variable image_load : string -> option Surface.
(** [pygame.transform.scale(image, size)]. *)
Variable transform_scale : Surface -> Z * Z -> Image.

(** The dictionary literal of [load_images]. *)
Definition pieces : list (string * string) :=
  [ ("P", "white-pawn.png"); ("N", "white-knight.png");
    ("B", "white-bishop.png"); ("R", "white-rook.png");
    ("Q", "white-queen.png"); ("K", "white-king.png");
    ("p", "black-pawn.png"); ("n", "black-knight.png");
    ("b", "black-bishop.png"); ("r", "black-rook.png");
    ("q", "black-queen.png"); ("k", "black-king.png") ]%string.

(** How [load_images] ends: normally, or re-raising the
    [pygame.error] of the [path] it could not load.  Either way with
    the global [IMAGES] as it has become. *)
Inductive loaded : Type :=
| Loaded (IMAGES : list (string * Image))
| Load_error (path : string) (IMAGES : list (string * Image)).

Fixpoint load_images_loop (items : list (string * string))
  (IMAGES : list (string * Image)) : loaded :=
  match items with
  | [] => Loaded IMAGES
  | (symbol, filename) :: rest =>
      let path := ("images/" ++ filename)%string in
      match image_load path with
      | None => Load_error path IMAGES
      | Some image =>
          load_images_loop rest
            (dict_set IMAGES symbol (transform_scale image (SQ_SIZE, SQ_SIZE)))
      end
  end.

(** [load_images()], from the global [IMAGES] it finds. *)
Definition load_images (IMAGES : list (string * Image)) : loaded :=
  load_images_loop pieces IMAGES.

End Images.

(** The body of the loop of [draw_pieces] for one [square], with the
    global [IMAGES]: the [blit] it makes, if any. *)
Definition draw_pieces_square {RE : RulesEngine} {Image : Type}
  (IMAGES : list (string * Image)) (board : Board) (flip_board : bool)
  (square : Z) : outcome (list (drawn Image)) :=
  match piece_at board square with
  | Some piece =>
      let file := square_file square in
      let rank := square_rank square in
      let file := if flip_board then 7 - file else file in
      let rank := if flip_board then 7 - rank else rank in
      let x := file * SQ_SIZE in
      let y := (7 - rank) * SQ_SIZE in
      let symbol := symbol piece in
      obind (dict_lookup IMAGES symbol) (fun image =>
      Returns [Blit image (mkRect x y SQ_SIZE SQ_SIZE)])
  | None => Returns []
  end.

(** The loop of [draw_pieces] on the squares left; an exception ends
    it at the square that raises. *)
Fixpoint draw_pieces_loop {RE : RulesEngine} {Image : Type}
  (IMAGES : list (string * Image)) (board : Board) (flip_board : bool)
  (squares : list Z) : outcome (list (drawn Image)) :=
  match squares with
  | [] => Returns []
  | square :: rest =>
      obind (draw_pieces_square IMAGES board flip_board square) (fun now =>
      obind (draw_pieces_loop IMAGES board flip_board rest) (fun later =>
      Returns (now ++ later)))
  end.

(** [draw_pieces(screen, board, flip_board)]: what it draws, or the
    [KeyError] of a symbol that [IMAGES] does not have. *)
Definition draw_pieces {RE : RulesEngine} {Image : Type}
  (IMAGES : list (string * Image)) (board : Board) (flip_board : bool)
  : outcome (list (drawn Image)) :=
  draw_pieces_loop IMAGES board flip_board SQUARES.

(** The rectangle in which [draw_pieces] draws the piece of the square
    [sq]. *)
Definition blit_rect (flip_board : bool) (sq : Z) : Rect :=
  mkRect ((if flip_board then 7 - square_file sq else square_file sq) * SQ_SIZE)
         ((7 - (if flip_board then 7 - square_rank sq else square_rank sq))
          * SQ_SIZE)
         SQ_SIZE SQ_SIZE.

(** The points of a rectangle. *)
Definition inside (r : Rect) (pos : Z * Z) : Prop :=
  rect_left r <= fst pos < rect_left r + rect_width r /\
  rect_top r <= snd pos < rect_top r + rect_height r.

(* ================================================================== *)
(** ** The game loop of [main]

    One pass of [while running] takes what [pygame.event.get()]
    returns in that pass (a mouse click with the position that
    [pygame.mouse.get_pos()] gives when it is handled) and, on the
    engine's turn, the random source and the recursion budget of
    [get_best_move].  What the program shows -- the lines it prints and
    the frames it draws -- is kept in order.  [time.sleep] and
    [clock.tick] have no counterpart. *)

Inductive event : Type :=
| QUIT
| MOUSEBUTTONDOWN (pos : Z * Z)
| Other_event.

Section Game.
Context {RE : RulesEngine}.
Variable Image : Type.
(** [chess.Move(from_square, to_square)] and [==] on moves. *)
Variable Move_ : Z -> Z -> Move.
Variable move_eqb : Move -> Move -> bool.

(** What the program shows. *)
Inductive shown : Type :=
| Print_invalid_choice            (* "Invalid choice. Defaulting to white." *)
| Print_illegal_move              (* "Illegal move, try again." *)
| Print_AI_played (ai_move : Move)      (* "AI played:", ai_move.uci() *)
| Print_game_over (board : Board)       (* "Game over. Result:", board.result() *)
| Frame (cmds : list (drawn Image)).    (* the frame at pygame.display.flip() *)

Definition SEARCH_DEPTH : Z := 3.

(** [move in board.legal_moves]. *)
Definition is_legal (board : Board) (move : Move) : bool :=
  existsb (move_eqb move) (legal_moves board).

Definition human_turn (board : Board) (human_is_white : bool) : bool :=
  (Bool.eqb (turn board) WHITE && human_is_white)
  || (Bool.eqb (turn board) BLACK && negb human_is_white).

(** The [MOUSEBUTTONDOWN] branch: the new board, selection and lines
    printed. *)
Definition on_click (human_is_white flip_board : bool) (pos : Z * Z)
  (board : Board) (selected_sq : option Z)
  : Board * option Z * list shown :=
  let sq := get_square_from_mouse pos flip_board in
  match selected_sq with
  | None =>
      match piece_at board sq with
      | Some piece =>
          if (Bool.eqb (color piece) WHITE && human_is_white)
             || (Bool.eqb (color piece) BLACK && negb human_is_white)
          then (board, Some sq, [])
          else (board, selected_sq, [])
      | None => (board, selected_sq, [])
      end
  | Some selected =>
      let move := Move_ selected sq in
      if is_legal board move
      then (push board move, None, [])
      else (board, None, [Print_illegal_move])
  end.

(** How the [for event in pygame.event.get()] of the human's turn
    ends: with [sys.exit()], or at the end of the events. *)
Inductive handled : Type :=
| Quits (out : list shown)
| Handled (board : Board) (selected_sq : option Z) (out : list shown).

Fixpoint human_events (human_is_white flip_board : bool) (events : list event)
  (board : Board) (selected_sq : option Z) (out : list shown) : handled :=
  match events with
  | [] => Handled board selected_sq out
  | QUIT :: _ => Quits out
  | MOUSEBUTTONDOWN pos :: rest =>
      let '(board, selected_sq, printed) :=
        on_click human_is_white flip_board pos board selected_sq in
      human_events human_is_white flip_board rest board selected_sq
                   (out ++ printed)
  | Other_event :: rest =>
      human_events human_is_white flip_board rest board selected_sq out
  end.

(** The [for event in pygame.event.get()] of the engine's turn:
    [false] is [sys.exit()]. *)
Fixpoint ai_events (events : list event) : bool :=
  match events with
  | [] => true
  | QUIT :: _ => false
  | _ :: rest => ai_events rest
  end.

(** How one pass of the loop ends. *)
Inductive pass : Type :=
| Exits (out : list shown)    (* sys.exit() *)
| Fails (e : exn)             (* an exception that nothing catches *)
| Exhausted                   (* the recursion budget of the search *)
| Continues (running : bool) (board : Board) (selected_sq : option Z)
            (out : list shown).

(** The drawing and the game-over test that end a pass. *)
Definition end_of_pass (IMAGES : list (string * Image)) (flip_board : bool)
  (board : Board) (selected_sq : option Z) (out : list shown) : pass :=
  match draw_pieces IMAGES board flip_board with
  | Returns pieces_drawn =>
      let out := out ++ [Frame (draw_board flip_board selected_sq ++ pieces_drawn)] in
      if is_game_over board
      then Continues false board selected_sq (out ++ [Print_game_over board])
      else Continues true board selected_sq out
  | Raises e => Fails e
  | OutOfFuel => Exhausted
  end.

(** The body of [while running]. *)
Definition main_pass (IMAGES : list (string * Image)) (human_is_white : bool)
  (fuel rnd : nat) (events : list event)
  (board : Board) (selected_sq : option Z) : pass :=
  let ai_color := if human_is_white then BLACK else WHITE in
  let flip_board := negb human_is_white in
  if human_turn board human_is_white then
    match human_events human_is_white flip_board events board selected_sq [] with
    | Quits out => Exits out
    | Handled board selected_sq out =>
        end_of_pass IMAGES flip_board board selected_sq out
    end
  else
    if ai_events events then
      match get_best_move fuel rnd SEARCH_DEPTH ai_color board with
      | Returns (ai_move, board) =>
          let board := push board ai_move in
          end_of_pass IMAGES flip_board board selected_sq [Print_AI_played ai_move]
      | Raises e => Fails e
      | OutOfFuel => Exhausted
      end
    else Exits [].

                                                (* the next pass *)





End Game.

(** The drop game under the mouse: a move from any square to the
    square [to_square] drops the piece number [to_square] of the menu;
    two moves are equal when their pieces have the same symbol. *)
Definition toy_Move_ (from_square to_square : Z) : Piece :=
  nth (Z.to_nat to_square)
      [Toy.bP; Toy.wN; Toy.wP; Toy.bN; Toy.wB; Toy.bR; Toy.bQ; Toy.wK] Toy.wK.

Definition toy_move_eqb (x y : Piece) : bool := String.eqb (symbol x) (symbol y).

(** The images of the drop game: the number of the entry of [pieces]. *)
Definition toy_IMAGES : list (string * nat) :=
  combine (map fst pieces) (seq 0 12).

(* ================================================================== *)
(** ** Scores seen from the other side *)

(** Python's unary minus on a score. *)
Definition sneg (s : score) : score :=
  match s with
  | NegInf => PosInf
  | Fin z => Fin (- z)
  | PosInf => NegInf
  end.

(** The outcome of a search with its score negated. *)
Definition negated {RE : RulesEngine} (o : outcome (score * Board))
  : outcome (score * Board) :=
  obind o (fun r => Returns (sneg (fst r), snd r)).

(* ================================================================== *)
(** * Properties *)

Unset Implicit Arguments.

(* ------------------------------------------------------------------ *)
(** ** The order on scores *)

Ltac score_crush :=
  unfold smax, smin, slt, sle in *;
  repeat match goal with s : score |- _ => destruct s end;
  simpl in *;
  repeat match goal with
         | H : context [Z.ltb ?x ?y] |- _ => destruct (Z.ltb_spec x y)
         | |- context [Z.ltb ?x ?y] => destruct (Z.ltb_spec x y)
         | H : context [Z.leb ?x ?y] |- _ => destruct (Z.leb_spec x y)
         | |- context [Z.leb ?x ?y] => destruct (Z.leb_spec x y)
         end;
  simpl in *;
  try congruence; try lia; try (f_equal; lia).

Lemma sle_refl (a : score) : sle a a = true.
Proof. score_crush. Qed.

Lemma sle_trans (a b c : score) :
  sle a b = true -> sle b c = true -> sle a c = true.
Proof. intros. score_crush. Qed.

Lemma slt_sle_false (a b : score) : slt a b = true <-> sle b a = false.
Proof. split; intros; score_crush. Qed.

Lemma smax_assoc (a b c : score) : smax a (smax b c) = smax (smax a b) c.
Proof. score_crush. Qed.

Lemma smin_assoc (a b c : score) : smin a (smin b c) = smin (smin a b) c.
Proof. score_crush. Qed.

Lemma smax_NegInf_r (a : score) : smax a NegInf = a.
Proof. score_crush. Qed.

Lemma smin_PosInf_r (a : score) : smin a PosInf = a.
Proof. score_crush. Qed.

Lemma sle_smax_l (a b : score) : sle a (smax a b) = true.
Proof. score_crush. Qed.

Lemma sle_smin_l (a b : score) : sle (smin a b) a = true.
Proof. score_crush. Qed.

Lemma smax_finite (a : score) (z : Z) :
  a = NegInf \/ finite a -> finite (smax a (Fin z)).
Proof.
  unfold finite. intros [-> | [x ->]]; unfold smax; simpl.
  - eauto.
  - destruct (x <? z); eauto.
Qed.

Lemma smin_finite (a : score) (z : Z) :
  a = PosInf \/ finite a -> finite (smin a (Fin z)).
Proof.
  unfold finite. intros [-> | [x ->]]; unfold smin; simpl.
  - eauto.
  - destruct (z <? x); eauto.
Qed.

Lemma fold_smax_ge (evals : list score) (a : score) :
  sle a (fold_left smax evals a) = true.
Proof.
  revert a. induction evals as [| e evals IH]; intros a; simpl.
  - apply sle_refl.
  - eapply sle_trans; [apply (sle_smax_l a e) | apply IH].
Qed.

Lemma fold_smin_le (evals : list score) (b : score) :
  sle (fold_left smin evals b) b = true.
Proof.
  revert b. induction evals as [| e evals IH]; intros b; simpl.
  - apply sle_refl.
  - eapply sle_trans; [apply IH | apply (sle_smin_l b e)].
Qed.

(* ------------------------------------------------------------------ *)
(** ** The evaluator *)

(** The dictionary has every symbol, with the weight of its type:
    the lookup of [evaluate_board] never raises [KeyError]. *)
Lemma dict_get_symbol (p : Piece) :
  dict_get piece_values (symbol p) = Returns (weight (piece_type p)).
Proof. destruct p as [[] []]; reflexivity. Qed.

Lemma evaluate_loop_sum (items : list (Z * Piece)) (c : Color) (value : Z) :
  evaluate_loop items c value =
  Returns (value + fold_right (fun it acc => signed_weight c (snd it) + acc) 0 items).
Proof.
  revert value.
  induction items as [| [sq p] rest IH]; intros value;
    cbn [evaluate_loop fold_right snd].
  - f_equal. lia.
  - rewrite dict_get_symbol. cbn [obind].
    set (T := fold_right _ 0 rest) in *. unfold signed_weight.
    destruct (Bool.eqb (color p) c); rewrite IH; f_equal; lia.
Qed.

Lemma signed_weight_opp (c : Color) (p : Piece) :
  signed_weight (negb c) p = - signed_weight c p.
Proof.
  unfold signed_weight. destruct (color p), c; simpl; lia.
Qed.

Lemma evaluate_board_material {RE : RulesEngine} (b : Board) (c : Color) :
  evaluate_board b c = Returns (material b c).
Proof. unfold evaluate_board, material. rewrite evaluate_loop_sum. reflexivity. Qed.

Lemma material_opp {RE : RulesEngine} (b : Board) (c : Color) :
  material b (negb c) = - material b c.
Proof.
  unfold material. induction (piece_map b) as [| it rest IH]; simpl.
  - reflexivity.
  - rewrite IH, signed_weight_opp. lia.
Qed.

(** C6.  [evaluate_board] returns the sum, over every piece of the
    board, of the fixed weight of its type (pawn 1, knight 3, bishop 3,
    rook 5, queen 9, king 0: [weight]), added when the piece is of the
    perspective's colour and subtracted otherwise. *)
Theorem evaluate_board_is_material {RE : RulesEngine} (b : Board) (c : Color) :
  evaluate_board b c =
  Returns (fold_right (fun it acc =>
             (if Bool.eqb (color (snd it)) c
              then weight (piece_type (snd it))
              else - weight (piece_type (snd it))) + acc) 0 (piece_map b))
  /\ weight PAWN = 1 /\ weight KNIGHT = 3 /\ weight BISHOP = 3
  /\ weight ROOK = 5 /\ weight QUEEN = 9 /\ weight KING = 0.
Proof.
  split; [apply evaluate_board_material | repeat split].
Qed.

(** C3.  For the two opposing sides [A] and [B], the evaluation for
    [A] is the exact negation of the evaluation for [B]. *)
Theorem evaluate_board_antisymmetric {RE : RulesEngine}
  (p : Board) (A B : Color) (opposing : A <> B) :
  exists v : Z, evaluate_board p B = Returns v /\ evaluate_board p A = Returns (- v).
Proof.
  exists (material p B). split; [apply evaluate_board_material |].
  rewrite evaluate_board_material. f_equal.
  replace A with (negb B) by (destruct A, B; simpl; congruence).
  apply material_opp.
Qed.

Lemma evaluate_board_antisymmetric_witness :
  exists v : Z,
    evaluate_board (RE := Toy.engine) [Toy.bQ; Toy.wB; Toy.wP] BLACK = Returns v /\
    evaluate_board (RE := Toy.engine) [Toy.bQ; Toy.wB; Toy.wP] WHITE = Returns (- v).
Proof.
  apply (@evaluate_board_antisymmetric Toy.engine [Toy.bQ; Toy.wB; Toy.wP] WHITE BLACK).
  discriminate.
Defined.

(** C4.  At [depth == 0], or on a game-over position, [alpha_beta]
    returns exactly what [evaluate_board] returns for the position and
    the perspective, whatever the window and the budget, and leaves
    the board as it is. *)
Theorem alpha_beta_base_case {RE : RulesEngine}
  (fuel : nat) (depth : Z) (alpha beta : score) (c : Color) (p : Board)
  (base : depth = 0 \/ is_game_over p = true) :
  alpha_beta fuel depth alpha beta c p =
  obind (evaluate_board p c) (fun v => Returns (Fin v, p)).
Proof.
  assert (E : (depth =? 0) || is_game_over p = true).
  { destruct base as [-> | ->]; [reflexivity | apply orb_true_r]. }
  destruct fuel; simpl; rewrite E; unfold bind, lift, ret;
    destruct (evaluate_board p c); reflexivity.
Qed.

Lemma alpha_beta_base_case_witness :
  alpha_beta (RE := Toy.engine) 0 0 (Fin 5) (Fin 2) WHITE [Toy.wB] =
  Returns (Fin 3, [Toy.wB]) /\
  is_game_over (RulesEngine := Toy.engine) [Toy.wB] = false.
Proof.
  split; [| reflexivity].
  rewrite (@alpha_beta_base_case Toy.engine 0 0 (Fin 5) (Fin 2) WHITE [Toy.wB]).
  - reflexivity.
  - left. reflexivity.
Defined.

(* ------------------------------------------------------------------ *)
(** ** Computations on the shared board *)

Section BoardFacts.
Context {RE : RulesEngine}.

Lemma bind_returns {A B} (c : M A) (k : A -> M B) b x :
  bind c k b = Returns x ->
  exists a b1, c b = Returns (a, b1) /\ k a b1 = Returns x.
Proof.
  unfold bind. destruct (c b) as [[a b1] | e |]; try discriminate.
  intros H. eauto.
Qed.

(** [push]; call; [pop] -- without any law of the engine. *)
Lemma push_call_pop_returns {A B} (rec : M A) (k : A -> M B) b move x :
  bind (push_ move) (fun _ => bind rec (fun e => bind pop_ (fun _ => k e))) b
    = Returns x ->
  exists e b1 b2, rec (push b move) = Returns (e, b1) /\
                  pop b1 = Returns b2 /\ k e b2 = Returns x.
Proof.
  intros H. apply bind_returns in H as (u & b0 & Hpush & H).
  unfold push_ in Hpush. injection Hpush as _ <-.
  apply bind_returns in H as (e & b1 & Hrec & H).
  apply bind_returns in H as (u' & b2 & Hpop & H).
  unfold pop_ in Hpop. destruct (pop b1) as [b2' | |] eqn:E; try discriminate.
  simpl in Hpop. injection Hpop as _ <-. eauto 8.
Qed.

Hypothesis pop_push : pop_push_law RE.

(** [push]; call; [pop] -- when the call leaves the board alone, the
    loop body continues on the board it started from. *)
Lemma push_call_pop {A B} (rec : M A) (k : A -> M B) b move :
  In move (legal_moves b) ->
  restores rec ->
  bind (push_ move) (fun _ => bind rec (fun e => bind pop_ (fun _ => k e))) b =
  match rec (push b move) with
  | Returns (e, _) => k e b
  | Raises e => Raises e
  | OutOfFuel => OutOfFuel
  end.
Proof.
  intros Hin Hres. unfold bind at 1 2. unfold push_.
  destruct (rec (push b move)) as [[e b1] | |] eqn:E; try reflexivity.
  apply Hres in E. subst b1.
  unfold bind, pop_. rewrite (pop_push b move Hin). reflexivity.
Qed.

(** *** Every loop restores the board when its calls do *)

Lemma max_loop_restores rec beta moves max_eval alpha b r b' :
  incl moves (legal_moves b) ->
  (forall a bt, restores (rec a bt)) ->
  max_loop rec beta moves max_eval alpha b = Returns (r, b') -> b' = b.
Proof.
  intros Hincl Hrec. revert max_eval alpha.
  induction moves as [| move rest IH]; intros max_eval alpha H.
  - injection H as _ <-. reflexivity.
  - apply incl_cons_inv in Hincl as [Hin Hrest].
    cbn [max_loop] in H. rewrite push_call_pop in H by auto.
    destruct (rec alpha beta (push b move)) as [[e b1] | |]; try discriminate.
    destruct (sle beta (smax alpha e)).
    + injection H as _ <-. reflexivity.
    + eapply IH; eauto.
Qed.

Lemma min_loop_restores rec alpha moves min_eval beta b r b' :
  incl moves (legal_moves b) ->
  (forall a bt, restores (rec a bt)) ->
  min_loop rec alpha moves min_eval beta b = Returns (r, b') -> b' = b.
Proof.
  intros Hincl Hrec. revert min_eval beta.
  induction moves as [| move rest IH]; intros min_eval beta H.
  - injection H as _ <-. reflexivity.
  - apply incl_cons_inv in Hincl as [Hin Hrest].
    cbn [min_loop] in H. rewrite push_call_pop in H by auto.
    destruct (rec alpha beta (push b move)) as [[e b1] | |]; try discriminate.
    destruct (sle (smin beta e) alpha).
    + injection H as _ <-. reflexivity.
    + eapply IH; eauto.
Qed.

Lemma alpha_beta_restores fuel depth alpha beta c :
  restores (alpha_beta fuel depth alpha beta c).
Proof.
  revert depth alpha beta.
  induction fuel as [| fuel IH]; intros depth alpha beta b r b' H;
    cbn [alpha_beta] in H;
    destruct ((depth =? 0) || is_game_over b);
    try (unfold bind, lift, ret in H; rewrite evaluate_board_material in H;
         simpl in H; injection H as _ <-; reflexivity).
  - discriminate.
  - destruct (Bool.eqb (turn b) c).
    + eapply max_loop_restores; [apply incl_refl | | exact H].
      intros a bt. apply IH.
    + eapply min_loop_restores; [apply incl_refl | | exact H].
      intros a bt. apply IH.
Qed.

Lemma root_loop_restores rec is_max moves best_value best_move b r b' :
  incl moves (legal_moves b) ->
  restores rec ->
  root_loop rec is_max moves best_value best_move b = Returns (r, b') -> b' = b.
Proof.
  intros Hincl Hrec. revert best_value best_move.
  induction moves as [| move rest IH]; intros best_value best_move H.
  - injection H as _ <-. reflexivity.
  - apply incl_cons_inv in Hincl as [Hin Hrest].
    cbn [root_loop] in H. rewrite push_call_pop in H by auto.
    destruct (rec (push b move)) as [[e b1] | |]; try discriminate.
    destruct (is_max && slt best_value e);
      [| destruct (negb is_max && slt e best_value)];
      eapply IH; eauto.
Qed.

Lemma best_of_loop_restores fuel depth c :
  restores (best_of_loop fuel depth c).
Proof.
  intros b r b' H. unfold best_of_loop in H.
  eapply root_loop_restores; [apply incl_refl | | exact H].
  apply alpha_beta_restores.
Qed.

Lemma get_best_move_restores fuel rnd depth c :
  restores (get_best_move fuel rnd depth c).
Proof.
  intros b m b' H. unfold get_best_move in H.
  apply bind_returns in H as ([bv bm] & b1 & Hloop & H).
  apply best_of_loop_restores in Hloop. subst b1.
  destruct bm as [best |]; simpl in H.
  - injection H as _ <-. reflexivity.
  - unfold lift in H. destruct (choice rnd (legal_moves b)); try discriminate.
    simpl in H. injection H as _ <-. reflexivity.
Qed.

(** *** The exhaustive search restores the board too *)

Lemma minimax_max_loop_restores rec moves max_eval b r b' :
  incl moves (legal_moves b) ->
  restores rec ->
  minimax_max_loop rec moves max_eval b = Returns (r, b') -> b' = b.
Proof.
  intros Hincl Hrec. revert max_eval.
  induction moves as [| move rest IH]; intros max_eval H.
  - injection H as _ <-. reflexivity.
  - apply incl_cons_inv in Hincl as [Hin Hrest].
    cbn [minimax_max_loop] in H. rewrite push_call_pop in H by auto.
    destruct (rec (push b move)) as [[e b1] | |]; try discriminate.
    eapply IH; eauto.
Qed.

Lemma minimax_min_loop_restores rec moves min_eval b r b' :
  incl moves (legal_moves b) ->
  restores rec ->
  minimax_min_loop rec moves min_eval b = Returns (r, b') -> b' = b.
Proof.
  intros Hincl Hrec. revert min_eval.
  induction moves as [| move rest IH]; intros min_eval H.
  - injection H as _ <-. reflexivity.
  - apply incl_cons_inv in Hincl as [Hin Hrest].
    cbn [minimax_min_loop] in H. rewrite push_call_pop in H by auto.
    destruct (rec (push b move)) as [[e b1] | |]; try discriminate.
    eapply IH; eauto.
Qed.

Lemma minimax_restores fuel depth c : restores (minimax fuel depth c).
Proof.
  revert depth.
  induction fuel as [| fuel IH]; intros depth b r b' H;
    cbn [minimax] in H;
    destruct ((depth =? 0) || is_game_over b);
    try (unfold bind, lift, ret in H; rewrite evaluate_board_material in H;
         simpl in H; injection H as _ <-; reflexivity).
  - discriminate.
  - destruct (Bool.eqb (turn b) c).
    + eapply minimax_max_loop_restores; [apply incl_refl | apply IH | exact H].
    + eapply minimax_min_loop_restores; [apply incl_refl | apply IH | exact H].
Qed.

(** *** With a budget that covers the depth, the search returns *)

Lemma total_restores {A} (c : M A) : total c -> restores c.
Proof.
  intros Ht b r b' H. destruct (Ht b) as [r0 E]. congruence.
Qed.

Lemma max_loop_total rec beta moves max_eval alpha b :
  incl moves (legal_moves b) ->
  (forall a bt, total (rec a bt)) ->
  exists r, max_loop rec beta moves max_eval alpha b = Returns (r, b).
Proof.
  intros Hincl Hrec. revert max_eval alpha.
  induction moves as [| move rest IH]; intros max_eval alpha.
  - eexists. reflexivity.
  - apply incl_cons_inv in Hincl as [Hin Hrest]. cbn [max_loop].
    destruct (Hrec alpha beta (push b move)) as [e E].
    rewrite push_call_pop by auto using total_restores. rewrite E.
    destruct (sle beta (smax alpha e)); [eexists; reflexivity | apply IH; auto].
Qed.

Lemma min_loop_total rec alpha moves min_eval beta b :
  incl moves (legal_moves b) ->
  (forall a bt, total (rec a bt)) ->
  exists r, min_loop rec alpha moves min_eval beta b = Returns (r, b).
Proof.
  intros Hincl Hrec. revert min_eval beta.
  induction moves as [| move rest IH]; intros min_eval beta.
  - eexists. reflexivity.
  - apply incl_cons_inv in Hincl as [Hin Hrest]. cbn [min_loop].
    destruct (Hrec alpha beta (push b move)) as [e E].
    rewrite push_call_pop by auto using total_restores. rewrite E.
    destruct (sle (smin beta e) alpha); [eexists; reflexivity | apply IH; auto].
Qed.

Lemma alpha_beta_total fuel depth alpha beta c :
  0 <= depth <= Z.of_nat fuel ->
  total (alpha_beta fuel depth alpha beta c).
Proof.
  revert depth alpha beta.
  induction fuel as [| fuel IH]; intros depth alpha beta Hd b;
    cbn [alpha_beta];
    destruct (Z.eqb_spec depth 0) as [-> | Hne]; cbn [orb];
    try (unfold bind, lift, ret; rewrite evaluate_board_material;
         eexists; reflexivity);
    try lia.
  destruct (is_game_over b).
  - unfold bind, lift, ret; rewrite evaluate_board_material. eexists; reflexivity.
  - destruct (Bool.eqb (turn b) c).
    + apply max_loop_total; [apply incl_refl |]. intros a bt. apply IH. lia.
    + apply min_loop_total; [apply incl_refl |]. intros a bt. apply IH. lia.
Qed.

Lemma minimax_max_loop_total rec moves max_eval b :
  incl moves (legal_moves b) -> total rec ->
  exists r, minimax_max_loop rec moves max_eval b = Returns (r, b).
Proof.
  intros Hincl Hrec. revert max_eval.
  induction moves as [| move rest IH]; intros max_eval.
  - eexists. reflexivity.
  - apply incl_cons_inv in Hincl as [Hin Hrest]. cbn [minimax_max_loop].
    destruct (Hrec (push b move)) as [e E].
    rewrite push_call_pop by auto using total_restores. rewrite E. auto.
Qed.

Lemma minimax_min_loop_total rec moves min_eval b :
  incl moves (legal_moves b) -> total rec ->
  exists r, minimax_min_loop rec moves min_eval b = Returns (r, b).
Proof.
  intros Hincl Hrec. revert min_eval.
  induction moves as [| move rest IH]; intros min_eval.
  - eexists. reflexivity.
  - apply incl_cons_inv in Hincl as [Hin Hrest]. cbn [minimax_min_loop].
    destruct (Hrec (push b move)) as [e E].
    rewrite push_call_pop by auto using total_restores. rewrite E. auto.
Qed.

Lemma minimax_total fuel depth c :
  0 <= depth <= Z.of_nat fuel -> total (minimax fuel depth c).
Proof.
  revert depth.
  induction fuel as [| fuel IH]; intros depth Hd b;
    cbn [minimax];
    destruct (Z.eqb_spec depth 0) as [-> | Hne]; cbn [orb];
    try (unfold bind, lift, ret; rewrite evaluate_board_material;
         eexists; reflexivity);
    try lia.
  destruct (is_game_over b).
  - unfold bind, lift, ret; rewrite evaluate_board_material. eexists; reflexivity.
  - destruct (Bool.eqb (turn b) c).
    + apply minimax_max_loop_total; [apply incl_refl |]. apply IH. lia.
    + apply minimax_min_loop_total; [apply incl_refl |]. apply IH. lia.
Qed.

Lemma root_loop_total rec is_max moves best_value best_move b :
  incl moves (legal_moves b) -> total rec ->
  exists r, root_loop rec is_max moves best_value best_move b = Returns (r, b).
Proof.
  intros Hincl Hrec. revert best_value best_move.
  induction moves as [| move rest IH]; intros best_value best_move.
  - eexists. reflexivity.
  - apply incl_cons_inv in Hincl as [Hin Hrest]. cbn [root_loop].
    destruct (Hrec (push b move)) as [e E].
    rewrite push_call_pop by auto using total_restores. rewrite E. auto.
    destruct (is_max && slt best_value e);
      [| destruct (negb is_max && slt e best_value)]; apply IH; auto.
Qed.

Lemma choice_returns {A} (rnd : nat) (seq : list A) :
  seq <> [] -> exists a, choice rnd seq = Returns a /\ In a seq.
Proof.
  intros Hne. unfold choice. destruct seq as [| x rest]; [congruence |].
  destruct (nth_error (x :: rest) (Nat.modulo rnd (List.length (x :: rest))))
    as [a |] eqn:E.
  - exists a. split; [reflexivity | eapply nth_error_In; eauto].
  - apply nth_error_None in E.
    pose proof (Nat.mod_upper_bound rnd (List.length (x :: rest))) as Hlt.
    simpl in *. lia.
Qed.

(** The selector on top of a total child search returns, on a
    position with a legal move. *)
Lemma selector_total rec is_max init rnd b :
  total rec -> legal_moves b <> [] ->
  exists m,
    bind (fun board => root_loop rec is_max (legal_moves board) init None board)
         (fun r => match snd r with
                   | None => fun board => lift (choice rnd (legal_moves board)) board
                   | Some best_move => ret best_move
                   end) b = Returns (m, b).
Proof.
  intros Hrec Hne. unfold bind.
  destruct (@root_loop_total rec is_max (legal_moves b) init None b
              (incl_refl _) Hrec) as [[bv bm] ->].
  destruct bm as [m |]; simpl.
  - exists m. reflexivity.
  - destruct (choice_returns rnd _ Hne) as (m & -> & _). exists m. reflexivity.
Qed.

Lemma get_best_move_total fuel rnd depth c b :
  1 <= depth <= Z.of_nat fuel + 1 -> legal_moves b <> [] ->
  exists m, get_best_move fuel rnd depth c b = Returns (m, b).
Proof.
  intros Hd Hne.
  apply (selector_total (alpha_beta fuel (depth - 1) NegInf PosInf c)
           (Bool.eqb (turn b) c) (if Bool.eqb (turn b) c then NegInf else PosInf)
           rnd b); [| exact Hne].
  apply alpha_beta_total. lia.
Qed.

Lemma minimax_best_move_total fuel rnd depth c b :
  1 <= depth <= Z.of_nat fuel + 1 -> legal_moves b <> [] ->
  exists m, minimax_best_move fuel rnd depth c b = Returns (m, b).
Proof.
  intros Hd Hne.
  apply (selector_total (minimax fuel (depth - 1) c)
           (Bool.eqb (turn b) c) (if Bool.eqb (turn b) c then NegInf else PosInf)
           rnd b); [| exact Hne].
  apply minimax_total. lia.
Qed.

End BoardFacts.

(* ------------------------------------------------------------------ *)
(** ** Pruning and the exact value: the order facts *)

Ltac order_crush :=
  unfold agree in *; intros;
  repeat match goal with H : _ /\ _ |- _ => destruct H end;
  unfold smax, smin, slt, sle in *;
  repeat match goal with s : score |- _ => destruct s end;
  simpl in *;
  repeat match goal with
         | H : context [Z.ltb ?x ?y] |- _ => destruct (Z.ltb_spec x y)
         | |- context [Z.ltb ?x ?y] => destruct (Z.ltb_spec x y)
         | H : context [Z.leb ?x ?y] |- _ => destruct (Z.leb_spec x y)
         | |- context [Z.leb ?x ?y] => destruct (Z.leb_spec x y)
         end;
  simpl in *;
  repeat match goal with
         | H : ?x = ?x -> _ |- _ => specialize (H eq_refl)
         | H : true = false -> _ |- _ => clear H
         | H : false = true -> _ |- _ => clear H
         | H : Fin _ = Fin _ |- _ => injection H as H
         | H : @eq score _ _ |- _ => discriminate H
         | H : @eq bool _ _ |- _ => discriminate H
         end;
  repeat split; try congruence; try lia; try (f_equal; lia).

Lemma agree_refl (a bt v : score) : agree a bt v v.
Proof. unfold agree. auto. Qed.

Lemma agree_full_window (v r : score) : agree NegInf PosInf v r -> r = v.
Proof. order_crush. Qed.

(** A cut in a maximizing loop: the child that caused it reached
    [beta], in the pruned and in the exhaustive search. *)
Lemma cut_max (a bt v r : score) :
  slt a bt = true -> sle bt (smax a r) = true -> agree a bt v r ->
  sle bt r = true /\ sle bt v = true.
Proof. order_crush. Qed.

Lemma above_max (bt v Mx V : score) :
  sle bt v = true -> sle (smax Mx v) V = true -> sle bt V = true.
Proof. order_crush. Qed.

Lemma break_max (a0 m a bt r V : score) :
  smax a0 m = a -> slt a bt = true -> sle bt r = true -> sle bt V = true ->
  agree a0 bt V (smax m r).
Proof. intros <-. order_crush. Qed.

Lemma continue_max (a bt v r : score) :
  slt a bt = true -> sle bt (smax a r) = false -> agree a bt v r ->
  smax a v = smax a r.
Proof. order_crush. Qed.

Lemma end_max (a0 Mx m a bt : score) :
  smax a0 Mx = a -> smax a0 m = a -> slt a bt = true -> agree a0 bt Mx m.
Proof. intros <-. order_crush. Qed.

(** The same for a minimizing loop. *)
Lemma cut_min (a bt v r : score) :
  slt a bt = true -> sle (smin bt r) a = true -> agree a bt v r ->
  sle r a = true /\ sle v a = true.
Proof. order_crush. Qed.

Lemma below_min (a v Mn V : score) :
  sle v a = true -> sle V (smin Mn v) = true -> sle V a = true.
Proof. order_crush. Qed.

Lemma break_min (b0 m a bt r V : score) :
  smin b0 m = bt -> slt a bt = true -> sle r a = true -> sle V a = true ->
  agree a b0 V (smin m r).
Proof. intros <-. order_crush. Qed.

Lemma continue_min (a bt v r : score) :
  slt a bt = true -> sle (smin bt r) a = false -> agree a bt v r ->
  smin bt v = smin bt r.
Proof. order_crush. Qed.

Lemma end_min (b0 Mn m a bt : score) :
  smin b0 Mn = bt -> smin b0 m = bt -> slt a bt = true -> agree a b0 Mn m.
Proof. intros <-. order_crush. Qed.

(* ------------------------------------------------------------------ *)
(** ** Pruning does not change the value on the full window *)

Section Pruning.
Context {RE : RulesEngine}.
Hypothesis pop_push : pop_push_law RE.

Lemma push_call_pop_eq {A B} (rec : M A) (k : A -> M B) b move e :
  In move (legal_moves b) ->
  rec (push b move) = Returns (e, push b move) ->
  bind (push_ move) (fun _ => bind rec (fun e => bind pop_ (fun _ => k e))) b
    = k e b.
Proof.
  intros Hin E. unfold bind at 1 2. unfold push_. rewrite E.
  unfold bind, pop_. rewrite (pop_push b move Hin). reflexivity.
Qed.

(** The running maximum of the exhaustive loop only grows. *)
Lemma minimax_max_loop_ge rec moves max_eval b V b1 :
  incl moves (legal_moves b) -> restores rec ->
  minimax_max_loop rec moves max_eval b = Returns (V, b1) ->
  sle max_eval V = true.
Proof.
  intros Hincl Hrec. revert max_eval.
  induction moves as [| move rest IH]; intros max_eval H.
  - injection H as <- _. apply sle_refl.
  - apply incl_cons_inv in Hincl as [Hin Hrest].
    cbn [minimax_max_loop] in H. rewrite (push_call_pop pop_push) in H by auto.
    destruct (rec (push b move)) as [[e bx] | |]; try discriminate.
    eapply sle_trans; [apply (sle_smax_l max_eval e) | eapply IH; eauto].
Qed.

Lemma minimax_min_loop_le rec moves min_eval b V b1 :
  incl moves (legal_moves b) -> restores rec ->
  minimax_min_loop rec moves min_eval b = Returns (V, b1) ->
  sle V min_eval = true.
Proof.
  intros Hincl Hrec. revert min_eval.
  induction moves as [| move rest IH]; intros min_eval H.
  - injection H as <- _. apply sle_refl.
  - apply incl_cons_inv in Hincl as [Hin Hrest].
    cbn [minimax_min_loop] in H. rewrite (push_call_pop pop_push) in H by auto.
    destruct (rec (push b move)) as [[e bx] | |]; try discriminate.
    eapply sle_trans; [eapply IH; eauto | apply (sle_smin_l min_eval e)].
Qed.

Lemma max_loop_agree rec_mm rec_ab b alpha0 beta :
  restores rec_mm -> child_agrees rec_mm rec_ab ->
  forall moves, incl moves (legal_moves b) ->
  forall Mx m alpha V b1,
    slt alpha beta = true -> smax alpha0 Mx = alpha -> smax alpha0 m = alpha ->
    minimax_max_loop rec_mm moves Mx b = Returns (V, b1) ->
    exists R, max_loop rec_ab beta moves m alpha b = Returns (R, b) /\
              agree alpha0 beta V R.
Proof.
  intros Hres Hrec moves.
  induction moves as [| move rest IH]; intros Hincl Mx m alpha V b1 Hw HM Hm H.
  - injection H as <- _. exists m. split; [reflexivity |].
    eapply end_max; eauto.
  - apply incl_cons_inv in Hincl as [Hin Hrest].
    cbn [minimax_max_loop] in H. rewrite (push_call_pop pop_push) in H by auto.
    destruct (rec_mm (push b move)) as [[v bx] | |] eqn:Emm; try discriminate.
    destruct (Hrec alpha beta _ _ _ Hw Emm) as (r & Eab & Hag).
    cbn [max_loop]. rewrite (push_call_pop_eq _ _ _ _ _ Hin Eab).
    destruct (sle beta (smax alpha r)) eqn:Ecut.
    + exists (smax m r). split; [reflexivity |].
      destruct (cut_max _ _ _ _ Hw Ecut Hag) as [Hr Hv].
      eapply break_max; eauto.
      eapply above_max; [exact Hv |].
      eapply minimax_max_loop_ge; eauto.
    + eapply IH; eauto.
      * apply slt_sle_false. exact Ecut.
      * rewrite smax_assoc, HM. eapply continue_max; eauto.
      * rewrite smax_assoc, Hm. reflexivity.
Qed.

Lemma min_loop_agree rec_mm rec_ab b alpha beta0 :
  restores rec_mm -> child_agrees rec_mm rec_ab ->
  forall moves, incl moves (legal_moves b) ->
  forall Mn m beta V b1,
    slt alpha beta = true -> smin beta0 Mn = beta -> smin beta0 m = beta ->
    minimax_min_loop rec_mm moves Mn b = Returns (V, b1) ->
    exists R, min_loop rec_ab alpha moves m beta b = Returns (R, b) /\
              agree alpha beta0 V R.
Proof.
  intros Hres Hrec moves.
  induction moves as [| move rest IH]; intros Hincl Mn m beta V b1 Hw HM Hm H.
  - injection H as <- _. exists m. split; [reflexivity |].
    eapply end_min; eauto.
  - apply incl_cons_inv in Hincl as [Hin Hrest].
    cbn [minimax_min_loop] in H. rewrite (push_call_pop pop_push) in H by auto.
    destruct (rec_mm (push b move)) as [[v bx] | |] eqn:Emm; try discriminate.
    destruct (Hrec alpha beta _ _ _ Hw Emm) as (r & Eab & Hag).
    cbn [min_loop]. rewrite (push_call_pop_eq _ _ _ _ _ Hin Eab).
    destruct (sle (smin beta r) alpha) eqn:Ecut.
    + exists (smin m r). split; [reflexivity |].
      destruct (cut_min _ _ _ _ Hw Ecut Hag) as [Hr Hv].
      eapply break_min; eauto.
      eapply below_min; [exact Hv |].
      eapply minimax_min_loop_le; eauto.
    + eapply IH; eauto.
      * apply slt_sle_false. exact Ecut.
      * rewrite smin_assoc, HM. eapply continue_min; eauto.
      * rewrite smin_assoc, Hm. reflexivity.
Qed.

(** [alpha_beta] on an open window against [minimax]. *)
Lemma alpha_beta_agree fuel depth c :
  child_agrees (minimax fuel depth c)
               (fun a bt => alpha_beta fuel depth a bt c).
Proof.
  revert depth.
  induction fuel as [| fuel IH]; intros depth a bt b v b1 Hw H;
    cbn [minimax] in H; cbn [alpha_beta];
    destruct ((depth =? 0) || is_game_over b);
    try (unfold bind, lift, ret in *; rewrite evaluate_board_material in *;
         simpl in *; injection H as <- _; eexists; split;
         [reflexivity | apply agree_refl]).
  - discriminate.
  - destruct (Bool.eqb (turn b) c).
    + apply (max_loop_agree (minimax fuel (depth - 1) c) _ b a bt
               (minimax_restores pop_push fuel (depth - 1) c) (IH (depth - 1))
               (legal_moves b) (incl_refl _) NegInf NegInf a v b1 Hw
               (smax_NegInf_r a) (smax_NegInf_r a) H).
    + apply (min_loop_agree (minimax fuel (depth - 1) c) _ b a bt
               (minimax_restores pop_push fuel (depth - 1) c) (IH (depth - 1))
               (legal_moves b) (incl_refl _) PosInf PosInf bt v b1 Hw
               (smin_PosInf_r bt) (smin_PosInf_r bt) H).
Qed.

(** On the full window the pruned search returns the exact value. *)
Lemma alpha_beta_exact fuel depth c b v b1 :
  minimax fuel depth c b = Returns (v, b1) ->
  alpha_beta fuel depth NegInf PosInf c b = Returns (v, b) /\ b1 = b.
Proof.
  intros H.
  destruct (alpha_beta_agree fuel depth c NegInf PosInf b v b1 eq_refl H)
    as (r & E & Hag).
  apply agree_full_window in Hag. subst r.
  split; [exact E | eapply (minimax_restores pop_push); eauto].
Qed.

(** The selector's loop over an exact child search. *)
Lemma root_loop_refines rec_mm rec_ab is_max b :
  restores rec_mm ->
  (forall b0 v b1, rec_mm b0 = Returns (v, b1) -> rec_ab b0 = Returns (v, b0)) ->
  forall moves, incl moves (legal_moves b) ->
  forall best_value best_move x,
    root_loop rec_mm is_max moves best_value best_move b = Returns x ->
    root_loop rec_ab is_max moves best_value best_move b = Returns x.
Proof.
  intros Hres Hrec moves.
  induction moves as [| move rest IH]; intros Hincl best_value best_move x H.
  - exact H.
  - apply incl_cons_inv in Hincl as [Hin Hrest].
    cbn [root_loop] in *. rewrite (push_call_pop pop_push) in H by auto.
    destruct (rec_mm (push b move)) as [[v bx] | |] eqn:Emm; try discriminate.
    rewrite (push_call_pop_eq _ _ _ _ _ Hin (Hrec _ _ _ Emm)).
    destruct (is_max && slt best_value v);
      [| destruct (negb is_max && slt v best_value)]; apply IH; auto.
Qed.

(** The value the selector's loop ends with is the one the
    exhaustive loop of the recursive case computes. *)
Lemma root_loop_max_value rec b :
  restores rec ->
  forall moves, incl moves (legal_moves b) ->
  forall best_value best_move bv bm b',
    root_loop rec true moves best_value best_move b = Returns (bv, bm, b') ->
    minimax_max_loop rec moves best_value b = Returns (bv, b').
Proof.
  intros Hres moves.
  induction moves as [| move rest IH]; intros Hincl best_value best_move bv bm b' H.
  - injection H as <- _ <-. reflexivity.
  - apply incl_cons_inv in Hincl as [Hin Hrest].
    cbn [root_loop] in H. rewrite (push_call_pop pop_push) in H by auto.
    cbn [minimax_max_loop]. rewrite (push_call_pop pop_push) by auto.
    destruct (rec (push b move)) as [[v bx] | |]; try discriminate.
    unfold smax. cbn [andb negb] in H.
    destruct (slt best_value v); eapply IH; eauto.
Qed.

Lemma root_loop_min_value rec b :
  restores rec ->
  forall moves, incl moves (legal_moves b) ->
  forall best_value best_move bv bm b',
    root_loop rec false moves best_value best_move b = Returns (bv, bm, b') ->
    minimax_min_loop rec moves best_value b = Returns (bv, b').
Proof.
  intros Hres moves.
  induction moves as [| move rest IH]; intros Hincl best_value best_move bv bm b' H.
  - injection H as <- _ <-. reflexivity.
  - apply incl_cons_inv in Hincl as [Hin Hrest].
    cbn [root_loop] in H. rewrite (push_call_pop pop_push) in H by auto.
    cbn [minimax_min_loop]. rewrite (push_call_pop pop_push) by auto.
    destruct (rec (push b move)) as [[v bx] | |]; try discriminate.
    unfold smin. cbn [andb negb] in H.
    destruct (slt v best_value); eapply IH; eauto.
Qed.

End Pruning.

(* ------------------------------------------------------------------ *)
(** ** The search returns finite scores *)

Section Finite.
Context {RE : RulesEngine}.
Hypothesis moves : moves_law RE.

Lemma max_loop_finite rec beta :
  (forall a bt, finite_results (fun r => r) (rec a bt)) ->
  forall mvs max_eval alpha b r b',
    (max_eval = NegInf /\ mvs <> []) \/ finite max_eval ->
    max_loop rec beta mvs max_eval alpha b = Returns (r, b') -> finite r.
Proof.
  intros Hrec mvs.
  induction mvs as [| move rest IH]; intros max_eval alpha b r b' Hm H.
  - injection H as <- _. destruct Hm as [[_ Hne] | Hf]; [congruence | exact Hf].
  - cbn [max_loop] in H.
    apply push_call_pop_returns in H as (e & b1 & b2 & Hcall & _ & H).
    destruct (Hrec _ _ _ _ _ Hcall) as [z ->].
    assert (Hf : finite (smax max_eval (Fin z))).
    { apply smax_finite. destruct Hm as [[-> _] | Hf]; auto. }
    destruct (sle beta (smax alpha (Fin z))).
    + injection H as <- _. exact Hf.
    + eapply IH; [right; exact Hf | exact H].
Qed.

Lemma min_loop_finite rec alpha :
  (forall a bt, finite_results (fun r => r) (rec a bt)) ->
  forall mvs min_eval beta b r b',
    (min_eval = PosInf /\ mvs <> []) \/ finite min_eval ->
    min_loop rec alpha mvs min_eval beta b = Returns (r, b') -> finite r.
Proof.
  intros Hrec mvs.
  induction mvs as [| move rest IH]; intros min_eval beta b r b' Hm H.
  - injection H as <- _. destruct Hm as [[_ Hne] | Hf]; [congruence | exact Hf].
  - cbn [min_loop] in H.
    apply push_call_pop_returns in H as (e & b1 & b2 & Hcall & _ & H).
    destruct (Hrec _ _ _ _ _ Hcall) as [z ->].
    assert (Hf : finite (smin min_eval (Fin z))).
    { apply smin_finite. destruct Hm as [[-> _] | Hf]; auto. }
    destruct (sle (smin beta (Fin z)) alpha).
    + injection H as <- _. exact Hf.
    + eapply IH; [right; exact Hf | exact H].
Qed.

Lemma alpha_beta_finite fuel depth alpha beta c :
  finite_results (fun r => r) (alpha_beta fuel depth alpha beta c).
Proof.
  revert depth alpha beta.
  induction fuel as [| fuel IH]; intros depth alpha beta b r b' H;
    cbn [alpha_beta] in H;
    destruct ((depth =? 0) || is_game_over b) eqn:Ebase;
    try (unfold bind, lift, ret in H; rewrite evaluate_board_material in H;
         simpl in H; injection H as <- _; eexists; reflexivity).
  - discriminate.
  - apply orb_false_elim in Ebase as [_ Hover]. apply moves in Hover.
    destruct (Bool.eqb (turn b) c).
    + eapply max_loop_finite; [| left; split; [reflexivity | exact Hover] | exact H].
      intros a bt. apply IH.
    + eapply min_loop_finite; [| left; split; [reflexivity | exact Hover] | exact H].
      intros a bt. apply IH.
Qed.

End Finite.

(* ------------------------------------------------------------------ *)
(** ** The root selector keeps the first best move *)

Lemma improves_branch {A} (is_max : bool) (v bv : score) (x y : A) :
  (if is_max && slt bv v then x else if negb is_max && slt v bv then x else y)
  = if improves is_max v bv then x else y.
Proof. unfold improves. destruct is_max, (slt bv v), (slt v bv); reflexivity. Qed.

Lemma improves_init (is_max : bool) (v : score) :
  finite v -> improves is_max v (if is_max then NegInf else PosInf) = true.
Proof. intros [z ->]. destruct is_max; reflexivity. Qed.

Lemma improves_trans (is_max : bool) (v bv s : score) :
  improves is_max v bv = true -> improves is_max bv s = true ->
  improves is_max v s = true.
Proof. unfold improves. destruct is_max; order_crush. Qed.

Lemma improves_over_tied (is_max : bool) (v bv s : score) :
  improves is_max v bv = true -> improves is_max s bv = false ->
  improves is_max v s = true.
Proof. unfold improves. destruct is_max; order_crush. Qed.

Section Selector.
Context {RE : RulesEngine}.
Hypothesis pop_push : pop_push_law RE.

Lemma root_loop_selected rec is_max b :
  restores rec -> finite_results (fun r => r) rec ->
  forall mvs done best_value best_move r b',
    incl mvs (legal_moves b) ->
    selected rec is_max b done best_value best_move ->
    root_loop rec is_max mvs best_value best_move b = Returns (r, b') ->
    selected rec is_max b (done ++ mvs) (fst r) (snd r) /\ b' = b.
Proof.
  intros Hres Hfin mvs.
  induction mvs as [| move rest IH];
    intros done best_value best_move r b' Hincl Hsel H.
  - injection H as <- <-. rewrite app_nil_r. auto.
  - apply incl_cons_inv in Hincl as [Hin Hrest].
    cbn [root_loop] in H. rewrite (push_call_pop pop_push) in H by auto.
    destruct (rec (push b move)) as [[v bx] | |] eqn:Ecall; try discriminate.
    pose proof (Hfin _ _ _ Ecall) as Hv.
    pose proof (Hres _ _ _ Ecall) as Hbx. subst bx.
    rewrite improves_branch in H.
    replace (done ++ move :: rest) with ((done ++ [move]) ++ rest)
      by (rewrite <- app_assoc; reflexivity).
    destruct (improves is_max v best_value) eqn:Eimp;
      (eapply IH; [exact Hrest | | exact H]).
    + (* the move replaces the best one *)
      destruct best_move as [m |]; cbn [selected] in *.
      * destruct Hsel as (pre & post & -> & Em & Hbv & Hpre & Hpost).
        exists (pre ++ m :: post), []. repeat split; auto.
        apply Forall_app. split; [| constructor].
        -- eapply Forall_impl; [| exact Hpre].
           intros m' (s' & Es & Hs). exists s'. split; [exact Es |].
           eapply improves_trans; eauto.
        -- exists best_value. auto.
        -- eapply Forall_impl; [| exact Hpost].
           intros m' (s' & Es & Hs). exists s'. split; [exact Es |].
           eapply improves_over_tied; eauto.
      * destruct Hsel as [-> _]. exists [], []. repeat split; auto.
    + (* the best move stays *)
      destruct best_move as [m |]; cbn [selected] in *.
      * destruct Hsel as (pre & post & -> & Em & Hbv & Hpre & Hpost).
        exists pre, (post ++ [move]). repeat split; auto.
        -- rewrite <- app_assoc. reflexivity.
        -- apply Forall_app. split; [exact Hpost |].
           constructor; [| constructor]. exists v. auto.
      * destruct Hsel as [_ ->]. rewrite improves_init in Eimp by exact Hv.
        discriminate.
Qed.

Hypothesis moves : moves_law RE.

(** What [get_best_move] leaves its loop with. *)
Lemma best_of_loop_selected fuel depth c b r b' :
  best_of_loop fuel depth c b = Returns (r, b') ->
  selected (alpha_beta fuel (depth - 1) NegInf PosInf c)
           (Bool.eqb (turn b) c) b (legal_moves b) (fst r) (snd r) /\ b' = b.
Proof.
  intros H. unfold best_of_loop in H.
  eapply (root_loop_selected _ _ b (alpha_beta_restores pop_push _ _ _ _ _)
            (alpha_beta_finite moves _ _ _ _ _) (legal_moves b) []);
    [apply incl_refl | | exact H].
  split; reflexivity.
Qed.

End Selector.

(* ------------------------------------------------------------------ *)
(** ** The recorded search: the log changes nothing, and what it says *)

Section Traced.
Context {RE : RulesEngine}.

Lemma max_loop_erase rec rec_t alpha0 beta :
  (forall f a bt b, rec a bt b = erase (rec_t f a bt b)) ->
  forall mvs max_eval alpha evals log b,
    max_loop rec beta mvs max_eval alpha b =
    erase (max_loop_traced rec_t alpha0 beta mvs max_eval alpha evals log b).
Proof.
  intros Hrec mvs.
  induction mvs as [| move rest IH]; intros max_eval alpha evals log b.
  - reflexivity.
  - cbn [max_loop max_loop_traced]. unfold bind at 1 2 4 5. unfold push_.
    rewrite (Hrec (FromNode alpha0 beta true evals)).
    destruct (rec_t _ alpha beta (push b move)) as [[[e l] b1] | |];
      try reflexivity.
    cbn [erase obind fst snd]. unfold bind, pop_.
    destruct (pop b1) as [b2 | |]; try reflexivity. cbn [obind].
    destruct (sle beta (smax alpha e)); [reflexivity | apply IH].
Qed.

Lemma min_loop_erase rec rec_t alpha beta0 :
  (forall f a bt b, rec a bt b = erase (rec_t f a bt b)) ->
  forall mvs min_eval beta evals log b,
    min_loop rec alpha mvs min_eval beta b =
    erase (min_loop_traced rec_t alpha beta0 mvs min_eval beta evals log b).
Proof.
  intros Hrec mvs.
  induction mvs as [| move rest IH]; intros min_eval beta evals log b.
  - reflexivity.
  - cbn [min_loop min_loop_traced]. unfold bind at 1 2 4 5. unfold push_.
    rewrite (Hrec (FromNode alpha beta0 false evals)).
    destruct (rec_t _ alpha beta (push b move)) as [[[e l] b1] | |];
      try reflexivity.
    cbn [erase obind fst snd]. unfold bind, pop_.
    destruct (pop b1) as [b2 | |]; try reflexivity. cbn [obind].
    destruct (sle (smin beta e) alpha); [reflexivity | apply IH].
Qed.

Lemma alpha_beta_erase fuel from depth alpha beta c b :
  alpha_beta fuel depth alpha beta c b =
  erase (alpha_beta_traced fuel from depth alpha beta c b).
Proof.
  revert from depth alpha beta b.
  induction fuel as [| fuel IH]; intros from depth alpha beta b;
    cbn [alpha_beta alpha_beta_traced];
    destruct ((depth =? 0) || is_game_over b);
    try (unfold bind, lift, ret; rewrite evaluate_board_material; reflexivity).
  - reflexivity.
  - destruct (Bool.eqb (turn b) c).
    + apply max_loop_erase. intros f a bt b0. apply IH.
    + apply min_loop_erase. intros f a bt b0. apply IH.
Qed.

Lemma root_loop_erase rec rec_t is_max :
  (forall b, rec b = erase (rec_t FromRoot NegInf PosInf b)) ->
  forall mvs best_value best_move log b,
    obind (root_loop rec is_max mvs best_value best_move b)
          (fun r => Returns (snd (fst r), snd r)) =
    obind (root_loop_traced rec_t is_max mvs best_value best_move log b)
          (fun r => Returns (snd (fst (fst r)), snd r)).
Proof.
  intros Hrec mvs.
  induction mvs as [| move rest IH]; intros best_value best_move log b.
  - reflexivity.
  - cbn [root_loop root_loop_traced]. unfold bind at 1 2 4 5. unfold push_.
    rewrite Hrec.
    destruct (rec_t FromRoot NegInf PosInf (push b move)) as [[[e l] b1] | |];
      try reflexivity.
    cbn [erase obind fst snd]. unfold bind, pop_.
    destruct (pop b1) as [b2 | |]; try reflexivity. cbn [obind].
    destruct (is_max && slt best_value e);
      [| destruct (negb is_max && slt e best_value)]; apply IH.
Qed.

(** [get_best_move] is the recorded [get_best_move] without its log. *)
Lemma get_best_move_erase fuel rnd depth c b :
  get_best_move fuel rnd depth c b =
  erase (get_best_move_traced fuel rnd depth c b).
Proof.
  unfold get_best_move, get_best_move_traced, best_of_loop, bind.
  pose proof (root_loop_erase
                (alpha_beta fuel (depth - 1) NegInf PosInf c)
                (fun f a bt => alpha_beta_traced fuel f (depth - 1) a bt c)
                (Bool.eqb (turn b) c)
                (fun b0 => alpha_beta_erase fuel FromRoot (depth - 1)
                             NegInf PosInf c b0)
                (legal_moves b)
                (if Bool.eqb (turn b) c then NegInf else PosInf) None [] b) as E.
  destruct (root_loop _ _ _ _ _ b) as [[[bv bm] b1] | |];
    destruct (root_loop_traced _ _ _ _ _ _ b) as [[[[bv' bm'] l] b1'] | |];
    try discriminate; try reflexivity;
    cbn [obind fst snd] in E.
  2: { injection E as <-. reflexivity. }
  injection E as <- <-. cbn [fst snd].
  destruct bm as [m |]; [reflexivity |].
  unfold lift, ret. destruct (choice rnd (legal_moves b1)); reflexivity.
Qed.

(** *** Every recorded call has its caller's current window *)

Lemma max_loop_threaded rec_t alpha0 beta :
  rec_threaded rec_t ->
  forall mvs max_eval alpha evals log,
    alpha = fold_left smax evals alpha0 ->
    Forall threaded log ->
    forall b r l b',
      max_loop_traced rec_t alpha0 beta mvs max_eval alpha evals log b
        = Returns (r, l, b') ->
      Forall threaded l.
Proof.
  intros Hrec mvs.
  induction mvs as [| move rest IH];
    intros max_eval alpha evals log Ha Hlog b r l b' H.
  - injection H as _ <- _. exact Hlog.
  - cbn [max_loop_traced] in H.
    apply push_call_pop_returns in H as ([e sub] & b1 & b2 & Hcall & _ & H).
    cbn [fst snd] in H.
    assert (Hlog' : Forall threaded (log ++ sub)).
    { apply Forall_app. split; [exact Hlog |].
      eapply Hrec; [| exact Hcall]. split; [exact Ha | reflexivity]. }
    destruct (sle beta (smax alpha e)).
    + injection H as _ <- _. exact Hlog'.
    + eapply IH; [| exact Hlog' | exact H].
      rewrite fold_left_app. cbn [fold_left]. rewrite Ha. reflexivity.
Qed.

Lemma min_loop_threaded rec_t alpha beta0 :
  rec_threaded rec_t ->
  forall mvs min_eval beta evals log,
    beta = fold_left smin evals beta0 ->
    Forall threaded log ->
    forall b r l b',
      min_loop_traced rec_t alpha beta0 mvs min_eval beta evals log b
        = Returns (r, l, b') ->
      Forall threaded l.
Proof.
  intros Hrec mvs.
  induction mvs as [| move rest IH];
    intros min_eval beta evals log Hb Hlog b r l b' H.
  - injection H as _ <- _. exact Hlog.
  - cbn [min_loop_traced] in H.
    apply push_call_pop_returns in H as ([e sub] & b1 & b2 & Hcall & _ & H).
    cbn [fst snd] in H.
    assert (Hlog' : Forall threaded (log ++ sub)).
    { apply Forall_app. split; [exact Hlog |].
      eapply Hrec; [| exact Hcall]. split; [reflexivity | exact Hb]. }
    destruct (sle (smin beta e) alpha).
    + injection H as _ <- _. exact Hlog'.
    + eapply IH; [| exact Hlog' | exact H].
      rewrite fold_left_app. cbn [fold_left]. rewrite Hb. reflexivity.
Qed.

Lemma alpha_beta_threaded fuel depth c :
  rec_threaded (fun f a bt => alpha_beta_traced fuel f depth a bt c).
Proof.
  revert depth.
  induction fuel as [| fuel IH]; intros depth from alpha beta Hentry b r l b' H;
    cbn [alpha_beta_traced] in H;
    destruct ((depth =? 0) || is_game_over b);
    try (unfold bind, lift, ret in H; rewrite evaluate_board_material in H;
         simpl in H; injection H as _ <- _; constructor; [exact Hentry | constructor]).
  - discriminate.
  - destruct (Bool.eqb (turn b) c).
    + eapply max_loop_threaded; [apply (IH (depth - 1)) | | | exact H]; auto.
    + eapply min_loop_threaded; [apply (IH (depth - 1)) | | | exact H]; auto.
Qed.

Lemma root_loop_threaded rec_t is_max :
  rec_threaded rec_t ->
  forall mvs best_value best_move log,
    Forall threaded log ->
    forall b r l b',
      root_loop_traced rec_t is_max mvs best_value best_move log b
        = Returns (r, l, b') ->
      Forall threaded l.
Proof.
  intros Hrec mvs.
  induction mvs as [| move rest IH];
    intros best_value best_move log Hlog b r l b' H.
  - injection H as _ <- _. exact Hlog.
  - cbn [root_loop_traced] in H.
    apply push_call_pop_returns in H as ([e sub] & b1 & b2 & Hcall & _ & H).
    cbn [fst snd] in H.
    assert (Hlog' : Forall threaded (log ++ sub)).
    { apply Forall_app. split; [exact Hlog |].
      eapply Hrec; [| exact Hcall]. split; reflexivity. }
    destruct (is_max && slt best_value e);
      [| destruct (negb is_max && slt e best_value)];
      eapply IH; eauto.
Qed.

Lemma get_best_move_threaded fuel rnd depth c :
  logs_threaded (get_best_move_traced fuel rnd depth c).
Proof.
  intros b m l b' H. unfold get_best_move_traced in H.
  apply bind_returns in H as ([[bv bm] l0] & b1 & Hloop & H).
  apply root_loop_threaded in Hloop; [| | constructor].
  - cbn [fst snd] in H. destruct bm as [best |].
    + injection H as _ <- _. exact Hloop.
    + apply bind_returns in H as (m0 & b2 & _ & H).
      injection H as _ <- _. exact Hloop.
  - apply alpha_beta_threaded.
Qed.

Lemma threaded_not_widened (c : call) : threaded c -> not_widened c.
Proof.
  unfold threaded, not_widened.
  destruct (call_from c) as [| alpha beta [|] evals]; [auto | |];
    intros [-> ->]; split;
    auto using sle_refl, fold_smax_ge, fold_smin_le.
Qed.

End Traced.

(* ------------------------------------------------------------------ *)
(** ** The selector chooses inside its loop *)

Section Chooses.
Context {RE : RulesEngine}.

Lemma root_loop_chooses rec is_max :
  finite_results (fun r => r) rec ->
  forall mvs best_value best_move b r b',
    root_loop rec is_max mvs best_value best_move b = Returns (r, b') ->
    (best_move = None ->
     mvs <> [] /\ best_value = (if is_max then NegInf else PosInf)) ->
    exists m, snd r = Some m /\ (In m mvs \/ best_move = Some m).
Proof.
  intros Hfin mvs.
  induction mvs as [| move rest IH]; intros best_value best_move b r b' H Hnone.
  - injection H as <- _. destruct best_move as [m |].
    + exists m. auto.
    + destruct (Hnone eq_refl) as [Hne _]. congruence.
  - cbn [root_loop] in H.
    apply push_call_pop_returns in H as (e & b1 & b2 & Hcall & _ & H).
    pose proof (Hfin _ _ _ Hcall) as He.
    rewrite improves_branch in H.
    destruct (improves is_max e best_value) eqn:Eimp.
    + apply IH in H as (m & Hm & Hin); [| discriminate].
      exists m. split; [exact Hm |]. left.
      destruct Hin as [Hin | Heq]; [right; exact Hin |].
      left. congruence.
    + destruct best_move as [m0 |].
      * apply IH in H as (m & Hm & Hin); [| discriminate].
        exists m. split; [exact Hm |].
        destruct Hin as [Hin | Heq]; [left; right; exact Hin | right; exact Heq].
      * destruct (Hnone eq_refl) as [_ ->].
        rewrite improves_init in Eimp by exact He. discriminate.
Qed.

End Chooses.

(* ------------------------------------------------------------------ *)
(** ** The small engine satisfies the laws *)

Lemma toy_pop_push : pop_push_law Toy.engine.
Proof. intros b m _. reflexivity. Qed.

Lemma toy_moves : moves_law Toy.engine.
Proof.
  intros b H. cbn in H |- *. rewrite H. discriminate.
Qed.

(* ================================================================== *)
(** * The claims *)

(** C1.  Pruning changes the nodes visited, never the root-level
    result.  With [undo] reversing [apply], for every position, depth
    and perspective: whenever the selector over the exhaustive
    (unpruned) minimax leaves its loop with a best value and a best
    move, [get_best_move] leaves its loop with the same best value and
    the same best move; on a position that is not game-over and a
    depth other than 0 that value is the value of [minimax] at the
    root for the same depth; whenever the exhaustive selector returns
    a move, [get_best_move] returns that move and the same board; and
    with a budget that covers the depth, on a position with a legal
    move, the exhaustive selector does return. *)
Theorem get_best_move_refines_minimax {RE : RulesEngine}
  (pop_push : pop_push_law RE)
  (fuel rnd : nat) (depth : Z) (c : Color) (b : Board) :
  (forall bv bm b',
      minimax_best_of_loop fuel depth c b = Returns (bv, bm, b') ->
      best_of_loop fuel depth c b = Returns (bv, bm, b') /\
      (depth <> 0 -> is_game_over b = false ->
       minimax (S fuel) depth c b = Returns (bv, b))) /\
  (forall m b',
      minimax_best_move fuel rnd depth c b = Returns (m, b') ->
      get_best_move fuel rnd depth c b = Returns (m, b')) /\
  (1 <= depth <= Z.of_nat fuel + 1 -> legal_moves b <> [] ->
   exists m, minimax_best_move fuel rnd depth c b = Returns (m, b)).
Proof.
  assert (Hloop : forall x,
             minimax_best_of_loop fuel depth c b = Returns x ->
             best_of_loop fuel depth c b = Returns x).
  { intros x H. unfold minimax_best_of_loop in H. unfold best_of_loop.
    eapply (root_loop_refines pop_push (minimax fuel (depth - 1) c));
      [apply (minimax_restores pop_push) | | apply incl_refl | exact H].
    intros b0 v b1 E. apply (alpha_beta_exact pop_push) in E. tauto. }
  split; [| split].
  - intros bv bm b' H. split; [apply Hloop; exact H |].
    intros Hd Hover. unfold minimax_best_of_loop in H.
    assert (b' = b) as ->.
    { eapply (root_loop_restores pop_push); [apply incl_refl | | exact H].
      apply (minimax_restores pop_push). }
    cbn [minimax]. rewrite Hover.
    destruct (Z.eqb_spec depth 0) as [E | _]; [contradiction |]. cbn [orb].
    destruct (Bool.eqb (turn b) c).
    + eapply (root_loop_max_value pop_push); [| apply incl_refl | exact H].
      apply (minimax_restores pop_push).
    + eapply (root_loop_min_value pop_push); [| apply incl_refl | exact H].
      apply (minimax_restores pop_push).
  - intros m b' H. unfold minimax_best_move, get_best_move, bind in *.
    destruct (minimax_best_of_loop fuel depth c b) as [x | |] eqn:E;
      try discriminate.
    rewrite (Hloop x eq_refl). exact H.
  - apply (minimax_best_move_total pop_push).
Qed.

Lemma get_best_move_refines_minimax_witness :
  best_of_loop (RE := Toy.engine) 2 3 WHITE [] = Returns (Fin (-3), Some Toy.wN, []) /\
  minimax (RE := Toy.engine) 3 3 WHITE [] = Returns (Fin (-3), []) /\
  get_best_move (RE := Toy.engine) 2 0 3 WHITE [] = Returns (Toy.wN, []).
Proof.
  destruct (@get_best_move_refines_minimax Toy.engine toy_pop_push 2 0 3 WHITE [])
    as (H1 & H2 & _).
  destruct (H1 (Fin (-3)) (Some Toy.wN) []) as [Ha Hb]; [vm_compute; reflexivity |].
  split; [exact Ha |]. split.
  - apply Hb; [discriminate | reflexivity].
  - apply H2. vm_compute. reflexivity.
Defined.

(** C2.  With [undo] reversing [apply]: when [get_best_move] returns,
    the board is the board it was called on, and so for every call of
    [alpha_beta], whatever its window -- the cut ([beta <= alpha])
    included; and with a budget that covers the depth both do
    return. *)
Theorem get_best_move_restores_board {RE : RulesEngine}
  (pop_push : pop_push_law RE)
  (fuel rnd : nat) (depth : Z) (c : Color) (b : Board) :
  (forall m b', get_best_move fuel rnd depth c b = Returns (m, b') -> b' = b) /\
  (forall alpha beta r b',
      alpha_beta fuel depth alpha beta c b = Returns (r, b') -> b' = b) /\
  (1 <= depth <= Z.of_nat fuel + 1 -> legal_moves b <> [] ->
   exists m, get_best_move fuel rnd depth c b = Returns (m, b)) /\
  (0 <= depth <= Z.of_nat fuel ->
   forall alpha beta, exists r,
     alpha_beta fuel depth alpha beta c b = Returns (r, b)).
Proof.
  repeat split.
  - intros m b'. apply (get_best_move_restores pop_push).
  - intros alpha beta r b'. apply (alpha_beta_restores pop_push).
  - apply (get_best_move_total pop_push).
  - intros Hd alpha beta. apply (alpha_beta_total pop_push); exact Hd.
Qed.

Lemma get_best_move_restores_board_witness :
  (exists m, get_best_move (RE := Toy.engine) 3 7 3 BLACK [Toy.wP]
             = Returns (m, [Toy.wP])) /\
  (exists r, alpha_beta (RE := Toy.engine) 3 2 (Fin 0) (Fin 1) BLACK [Toy.wP]
             = Returns (r, [Toy.wP])).
Proof.
  destruct (@get_best_move_restores_board Toy.engine toy_pop_push
              3 7 3 BLACK [Toy.wP]) as (_ & _ & H3 & _).
  destruct (@get_best_move_restores_board Toy.engine toy_pop_push
              3 7 2 BLACK [Toy.wP]) as (_ & _ & _ & H4).
  split.
  - apply H3; [simpl; lia | discriminate].
  - apply H4. simpl; lia.
Defined.

(** C5.  [get_best_move] replaces its best move only on a strict
    improvement ([improves]: [>] at a maximizing root, [<] at a
    minimizing one), so it returns the first of the best moves: with
    the laws of the engine, when it returns [m], the legal moves are
    [pre ++ m :: post], every move of [pre] has a score that the score
    of [m] strictly improves on, and no move of [post] has a score that
    strictly improves on the score of [m] -- a later move with an equal
    score does not replace it. *)
Theorem get_best_move_first_best {RE : RulesEngine}
  (pop_push : pop_push_law RE) (moves : moves_law RE)
  (fuel rnd : nat) (depth : Z) (c : Color) (b : Board) (m : Move) (b' : Board)
  (returned : get_best_move fuel rnd depth c b = Returns (m, b')) :
  exists pre post s,
    legal_moves b = pre ++ m :: post /\
    child_score fuel depth c b m = Returns s /\
    Forall (fun m' => exists s',
              child_score fuel depth c b m' = Returns s' /\
              improves (Bool.eqb (turn b) c) s s' = true) pre /\
    Forall (fun m' => exists s',
              child_score fuel depth c b m' = Returns s' /\
              improves (Bool.eqb (turn b) c) s' s = false) post.
Proof.
  unfold get_best_move in returned.
  apply bind_returns in returned as ([bv bm] & b1 & Hloop & H).
  apply (best_of_loop_selected pop_push moves) in Hloop as [Hsel ->].
  cbn [fst snd] in *. destruct bm as [best |]; cbn [selected] in Hsel.
  - injection H as <- _.
    destruct Hsel as (pre & post & E & Em & _ & Hpre & Hpost).
    exists pre, post, bv. unfold child_score.
    split; [exact E |]. split; [rewrite Em; reflexivity |].
    split; (eapply Forall_impl; [| eassumption]);
      intros m' (s' & Es & Hs); exists s'; rewrite Es; auto.
  - destruct Hsel as [E _]. rewrite E in H. discriminate.
Qed.

Lemma get_best_move_first_best_witness :
  exists pre post s,
    legal_moves (RulesEngine := Toy.engine) [Toy.bN; Toy.wP]
      = pre ++ Toy.wN :: post /\
    child_score (RE := Toy.engine) 0 1 WHITE [Toy.bN; Toy.wP] Toy.wN = Returns s /\
    Forall (fun m' => exists s',
              child_score (RE := Toy.engine) 0 1 WHITE [Toy.bN; Toy.wP] m'
                = Returns s' /\
              improves true s s' = true) pre /\
    Forall (fun m' => exists s',
              child_score (RE := Toy.engine) 0 1 WHITE [Toy.bN; Toy.wP] m'
                = Returns s' /\
              improves true s' s = false) post.
Proof.
  apply (@get_best_move_first_best Toy.engine toy_pop_push toy_moves
           0 0 1 WHITE [Toy.bN; Toy.wP] Toy.wN [Toy.bN; Toy.wP]).
  vm_compute. reflexivity.
Defined.

(** C7.  The full window [(-inf, +inf)] is what [get_best_move] gives
    each of its calls of [alpha_beta]; every call that [alpha_beta]
    makes itself is given the caller's current bounds ([threaded]: the
    caller's own window tightened by the results of the children
    before), so no call below the root has a window wider than its
    caller's ([not_widened]).  The recorded [get_best_move] is
    [get_best_move] with a log added. *)
Theorem alpha_beta_window_threaded {RE : RulesEngine}
  (fuel rnd : nat) (depth : Z) (c : Color) (b : Board)
  (m : Move) (log : list call) (b' : Board)
  (returned : get_best_move_traced fuel rnd depth c b = Returns (m, log, b')) :
  get_best_move fuel rnd depth c b = Returns (m, b') /\
  Forall threaded log /\
  Forall not_widened log.
Proof.
  split; [| split].
  - rewrite get_best_move_erase, returned. reflexivity.
  - eapply get_best_move_threaded; eauto.
  - eapply Forall_impl; [apply threaded_not_widened |].
    eapply get_best_move_threaded; eauto.
Qed.

Lemma alpha_beta_window_threaded_witness :
  List.length toy_log = 368%nat /\
  get_best_move (RE := Toy.engine) 2 0 3 WHITE [] = Returns (Toy.wN, []) /\
  Forall threaded toy_log /\
  Forall not_widened toy_log.
Proof.
  split; [reflexivity |].
  apply (@alpha_beta_window_threaded Toy.engine 2 0 3 WHITE [] Toy.wN toy_log []).
  vm_compute. reflexivity.
Defined.

(** *** The loop of [get_best_move] ends with a move chosen *)

Lemma best_of_loop_chooses {RE : RulesEngine} (moves : moves_law RE)
  (fuel : nat) (depth : Z) (c : Color) (b : Board) bv bm b' :
  legal_moves b <> [] ->
  best_of_loop fuel depth c b = Returns (bv, bm, b') ->
  exists m, bm = Some m /\ In m (legal_moves b) /\
            forall rnd, get_best_move fuel rnd depth c b = Returns (m, b').
Proof.
  intros has_move H. pose proof H as H0. unfold best_of_loop in H0.
  apply root_loop_chooses in H0 as (m & Hm & Hin).
  - cbn [snd] in Hm. subst bm. exists m. split; [reflexivity |]. split.
    + destruct Hin as [Hin | Hx]; [exact Hin | discriminate].
    + intros rnd. unfold get_best_move, bind. rewrite H. reflexivity.
  - apply (alpha_beta_finite moves).
  - intros _. split; [exact has_move | reflexivity].
Qed.

Lemma best_of_loop_total {RE : RulesEngine} (pop_push : pop_push_law RE)
  (fuel : nat) (depth : Z) (c : Color) (b : Board) :
  1 <= depth <= Z.of_nat fuel + 1 ->
  exists r, best_of_loop fuel depth c b = Returns (r, b).
Proof.
  intros Hd. unfold best_of_loop.
  apply (root_loop_total pop_push); [apply incl_refl |].
  apply (alpha_beta_total pop_push). lia.
Qed.

(** C8.  With an engine whose positions that are not game-over have a
    legal move: on a position with at least one legal move, when the
    scoring loop of [get_best_move] ends, [best_move] is set, to one of
    the legal moves it scored, and [get_best_move] returns that move
    whatever the random source -- the fallback is not taken.  With a
    budget that covers the depth (and [undo] reversing [apply]) the
    loop does end. *)
Theorem get_best_move_fallback_unreachable {RE : RulesEngine}
  (moves : moves_law RE)
  (fuel : nat) (depth : Z) (c : Color) (b : Board)
  (has_move : legal_moves b <> []) :
  (forall bv bm b',
      best_of_loop fuel depth c b = Returns (bv, bm, b') ->
      exists m, bm = Some m /\ In m (legal_moves b) /\
                forall rnd, get_best_move fuel rnd depth c b = Returns (m, b')) /\
  (pop_push_law RE -> 1 <= depth <= Z.of_nat fuel + 1 ->
   exists bv m, best_of_loop fuel depth c b = Returns (bv, Some m, b)).
Proof.
  split.
  - intros bv bm b' H. eapply best_of_loop_chooses; eauto.
  - intros pop_push Hd.
    destruct (best_of_loop_total pop_push fuel depth c b Hd) as [[bv bm] E].
    destruct (best_of_loop_chooses moves _ _ _ _ _ _ _ has_move E)
      as (m & -> & _).
    exists bv, m. exact E.
Qed.

Lemma get_best_move_fallback_unreachable_witness :
  exists bv m, best_of_loop (RE := Toy.engine) 2 3 BLACK [Toy.wK]
               = Returns (bv, Some m, [Toy.wK]).
Proof.
  assert (Hne : legal_moves (RulesEngine := Toy.engine) [Toy.wK] <> [])
    by discriminate.
  destruct (@get_best_move_fallback_unreachable Toy.engine toy_moves
              2 3 BLACK [Toy.wK] Hne) as [_ H].
  apply H; [exact toy_pop_push | simpl; lia].
Defined.

(** C9.  With an engine whose positions that are not game-over have a
    legal move: on a position that is not game-over, [get_best_move]
    gives the same outcome for any two values of the random source; and
    with a budget that covers the depth (and [undo] reversing [apply])
    that outcome is a move, returned with the board unchanged. *)
Theorem get_best_move_deterministic {RE : RulesEngine}
  (moves : moves_law RE)
  (fuel : nat) (depth : Z) (c : Color) (b : Board)
  (not_over : is_game_over b = false) :
  (forall rnd1 rnd2,
      get_best_move fuel rnd1 depth c b = get_best_move fuel rnd2 depth c b) /\
  (pop_push_law RE -> 1 <= depth <= Z.of_nat fuel + 1 ->
   exists m, forall rnd, get_best_move fuel rnd depth c b = Returns (m, b)).
Proof.
  pose proof (moves b not_over) as has_move.
  split.
  - intros rnd1 rnd2.
    destruct (best_of_loop fuel depth c b) as [[[bv bm] b1] | e |] eqn:E.
    + destruct (best_of_loop_chooses moves _ _ _ _ _ _ _ has_move E)
        as (m & _ & _ & Hm).
      rewrite (Hm rnd1), (Hm rnd2). reflexivity.
    + unfold get_best_move, bind. rewrite E. reflexivity.
    + unfold get_best_move, bind. rewrite E. reflexivity.
  - intros pop_push Hd.
    destruct (best_of_loop_total pop_push fuel depth c b Hd) as [[bv bm] E].
    destruct (best_of_loop_chooses moves _ _ _ _ _ _ _ has_move E)
      as (m & _ & _ & Hm).
    exists m. exact Hm.
Qed.

Lemma get_best_move_deterministic_witness :
  get_best_move (RE := Toy.engine) 2 0 3 WHITE [Toy.bP] =
  get_best_move (RE := Toy.engine) 2 5 3 WHITE [Toy.bP].
Proof.
  assert (Hnt : is_game_over (RulesEngine := Toy.engine) [Toy.bP] = false)
    by reflexivity.
  destruct (@get_best_move_deterministic Toy.engine toy_moves
              2 3 WHITE [Toy.bP] Hnt) as [H _].
  apply H.
Defined.

(** C10.  With an engine whose positions that are not game-over have
    a legal move: whatever [alpha_beta] returns is a finite score,
    neither [+inf] nor [-inf], for every position, depth, window and
    perspective; and with a budget that covers the depth (and [undo]
    reversing [apply]) it does return one. *)
Theorem alpha_beta_returns_finite {RE : RulesEngine}
  (moves : moves_law RE)
  (fuel : nat) (depth : Z) (alpha beta : score) (c : Color) (b : Board) :
  (forall r b', alpha_beta fuel depth alpha beta c b = Returns (r, b') ->
                exists z, r = Fin z) /\
  (pop_push_law RE -> 0 <= depth <= Z.of_nat fuel ->
   exists z, alpha_beta fuel depth alpha beta c b = Returns (Fin z, b)).
Proof.
  split.
  - intros r b' H. exact (alpha_beta_finite moves _ _ _ _ _ _ _ _ H).
  - intros pop_push Hd.
    destruct (alpha_beta_total pop_push fuel depth alpha beta c Hd b) as [r E].
    destruct (alpha_beta_finite moves _ _ _ _ _ _ _ _ E) as [z ->].
    exists z. exact E.
Qed.

Lemma alpha_beta_returns_finite_witness :
  exists z, alpha_beta (RE := Toy.engine) 2 2 (Fin 4) (Fin (-4)) BLACK [Toy.bQ]
            = Returns (Fin z, [Toy.bQ]).
Proof.
  destruct (@alpha_beta_returns_finite Toy.engine toy_moves
              2 2 (Fin 4) (Fin (-4)) BLACK [Toy.bQ]) as [_ H].
  apply H; [exact toy_pop_push | simpl; lia].
Defined.

(* ================================================================== *)
(** * Beyond the claims: the presentation layer *)

Lemma SQ_SIZE_80 : SQ_SIZE = 80.
Proof. reflexivity. Qed.

Lemma In_range8 (x : Z) : In x range8 <-> 0 <= x < 8.
Proof.
  unfold range8. rewrite in_map_iff. split.
  - intros (n & <- & Hn). apply in_seq in Hn. lia.
  - intros H. exists (Z.to_nat x). split; [lia |]. apply in_seq. lia.
Qed.

Lemma In_SQUARES (sq : Z) : In sq SQUARES <-> 0 <= sq < 64.
Proof.
  unfold SQUARES. rewrite in_map_iff. split.
  - intros (n & <- & Hn). apply in_seq in Hn. lia.
  - intros H. exists (Z.to_nat sq). split; [lia |]. apply in_seq. lia.
Qed.

Lemma square_file_mod (sq : Z) : square_file sq = sq mod 8.
Proof. unfold square_file. apply (Z.land_ones sq 3). lia. Qed.

Lemma square_rank_div (sq : Z) : square_rank sq = sq / 8.
Proof. unfold square_rank. apply (Z.shiftr_div_pow2 sq 3). lia. Qed.

Lemma square_file_rank (sq : Z) :
  0 <= sq < 64 ->
  0 <= square_file sq < 8 /\ 0 <= square_rank sq < 8 /\
  square (square_file sq) (square_rank sq) = sq.
Proof.
  intros H. rewrite square_file_mod, square_rank_div. unfold square.
  Z.div_mod_to_equations. lia.
Qed.

(** A point of the cell in column [cx] and row [cy] of the window. *)
Lemma cell_of_point (cx cy : Z) (pos : Z * Z) :
  inside (mkRect (cx * SQ_SIZE) (cy * SQ_SIZE) SQ_SIZE SQ_SIZE) pos ->
  fst pos / SQ_SIZE = cx /\ snd pos / SQ_SIZE = cy.
Proof.
  unfold inside. cbn [rect_left rect_top rect_width rect_height].
  rewrite SQ_SIZE_80. intros [Hx Hy].
  split; Z.div_mod_to_equations; lia.
Qed.

(** A click on the cell where [draw_pieces] puts the piece of a
    square gives that square. *)
Lemma click_on_cell_of_square (sq : Z) (flip_board : bool) (pos : Z * Z) :
  0 <= sq < 64 ->
  inside (mkRect
            ((if flip_board then 7 - square_file sq else square_file sq) * SQ_SIZE)
            ((7 - (if flip_board then 7 - square_rank sq else square_rank sq))
             * SQ_SIZE)
            SQ_SIZE SQ_SIZE) pos ->
  get_square_from_mouse pos flip_board = sq.
Proof.
  intros Hsq Hin. apply cell_of_point in Hin as [Hx Hy].
  destruct (square_file_rank sq Hsq) as (Hf & Hr & Heq).
  destruct pos as [x y]. cbn [fst snd] in *.
  unfold get_square_from_mouse. rewrite Hx, Hy.
  unfold square in *. destruct flip_board; lia.
Qed.

(** X1.  A click inside the window gives a square of the board, for
    either orientation; the file and the rank of that square are the
    column and the row of the click, counted from the other side when
    the board is flipped. *)
Theorem get_square_from_mouse_on_board (x y : Z) (flip_board : bool)
  (in_x : 0 <= x < WIDTH) (in_y : 0 <= y < HEIGHT) :
  In (get_square_from_mouse (x, y) flip_board) SQUARES /\
  square_file (get_square_from_mouse (x, y) flip_board)
    = (if flip_board then 7 - x / 80 else x / 80) /\
  square_rank (get_square_from_mouse (x, y) flip_board)
    = (if flip_board then y / 80 else 7 - y / 80).
Proof.
  unfold WIDTH, HEIGHT in *. rewrite In_SQUARES.
  rewrite square_file_mod, square_rank_div.
  unfold get_square_from_mouse, square. rewrite SQ_SIZE_80.
  destruct flip_board; repeat split; Z.div_mod_to_equations; lia.
Qed.

Lemma get_square_from_mouse_on_board_witness :
  In (get_square_from_mouse (639, 0) true) SQUARES /\
  square_file (get_square_from_mouse (639, 0) true) = 0 /\
  square_rank (get_square_from_mouse (639, 0) true) = 0.
Proof.
  apply (get_square_from_mouse_on_board 639 0 true); unfold WIDTH, HEIGHT; lia.
Defined.

(* ------------------------------------------------------------------ *)
(** ** [draw_pieces] *)

Section DrawPieces.
Context {RE : RulesEngine} {Image : Type}.
Variable IMAGES : list (string * Image).
Variable board : Board.
Variable flip_board : bool.

Lemma dict_lookup_outcome {V : Type} (d : list (string * V)) (k : string) :
  (exists v, dict_lookup d k = Returns v) \/ dict_lookup d k = Raises KeyError.
Proof.
  induction d as [| [k' v] rest IH]; cbn [dict_lookup]; [auto |].
  destruct (String.eqb k k'); eauto.
Qed.

Lemma draw_pieces_square_outcome (sq : Z) :
  match piece_at board sq with
  | None => draw_pieces_square IMAGES board flip_board sq = Returns []
  | Some p =>
      match dict_lookup IMAGES (symbol p) with
      | Returns img =>
          draw_pieces_square IMAGES board flip_board sq
            = Returns [Blit img (blit_rect flip_board sq)]
      | _ => draw_pieces_square IMAGES board flip_board sq = Raises KeyError
      end
  end.
Proof.
  unfold draw_pieces_square. destruct (piece_at board sq) as [p |]; [| reflexivity].
  destruct (dict_lookup_outcome IMAGES (symbol p)) as [[img E] | E];
    rewrite E; reflexivity.
Qed.

Lemma draw_pieces_loop_blits (squares : list Z) (cmds : list (drawn Image)) :
  draw_pieces_loop IMAGES board flip_board squares = Returns cmds ->
  forall cmd,
    In cmd cmds <->
    exists sq p img,
      In sq squares /\ piece_at board sq = Some p /\
      dict_lookup IMAGES (symbol p) = Returns img /\
      cmd = Blit img (blit_rect flip_board sq).
Proof.
  revert cmds.
  induction squares as [| sq rest IH]; intros cmds H cmd; cbn [draw_pieces_loop] in H.
  - injection H as <-. split; [intros [] | intros (? & ? & ? & [] & _)].
  - pose proof (draw_pieces_square_outcome sq) as Hsq.
    destruct (draw_pieces_square IMAGES board flip_board sq) as [now | |];
      try discriminate.
    cbn [obind] in H.
    destruct (draw_pieces_loop IMAGES board flip_board rest) as [later | |];
      try discriminate.
    cbn [obind] in H. injection H as <-. specialize (IH later eq_refl cmd).
    rewrite in_app_iff, IH. clear IH.
    destruct (piece_at board sq) as [p |] eqn:Ep.
    + destruct (dict_lookup IMAGES (symbol p)) as [img | |] eqn:Ei;
        try discriminate.
      injection Hsq as ->. split.
      * intros [[<- | []] | (sq' & p' & img' & Hs & Hrest)].
        -- exists sq, p, img. repeat split; auto using in_eq.
        -- exists sq', p', img'. split; [right; exact Hs | exact Hrest].
      * intros (sq' & p' & img' & [<- | Hs] & Hp & Hi & ->).
        -- left. left. rewrite Ep in Hp. injection Hp as <-.
           rewrite Ei in Hi. injection Hi as <-. reflexivity.
        -- right. exists sq', p', img'. auto.
    + injection Hsq as ->. split.
      * intros [[] | (sq' & p' & img' & Hs & Hrest)].
        exists sq', p', img'. split; [right; exact Hs | exact Hrest].
      * intros (sq' & p' & img' & [<- | Hs] & Hp & Hrest).
        -- congruence.
        -- right. exists sq', p', img'. auto.
Qed.

Lemma draw_pieces_loop_outcome (squares : list Z) :
  (forall sq p, In sq squares -> piece_at board sq = Some p ->
                exists img, dict_lookup IMAGES (symbol p) = Returns img) ->
  exists cmds, draw_pieces_loop IMAGES board flip_board squares = Returns cmds.
Proof.
  induction squares as [| sq rest IH]; intros Hall; cbn [draw_pieces_loop].
  - eexists. reflexivity.
  - destruct IH as [later E]; [intros; eapply Hall; eauto using in_cons |].
    rewrite E. pose proof (draw_pieces_square_outcome sq) as Hsq.
    destruct (piece_at board sq) as [p |] eqn:Ep.
    + destruct (Hall sq p (in_eq _ _) Ep) as [img Hi]. rewrite Hi in Hsq.
      rewrite Hsq. eexists. reflexivity.
    + rewrite Hsq. eexists. reflexivity.
Qed.

Lemma draw_pieces_loop_raises (squares : list Z) (sq : Z) (p : Piece) :
  In sq squares -> piece_at board sq = Some p ->
  dict_lookup IMAGES (symbol p) = Raises KeyError ->
  draw_pieces_loop IMAGES board flip_board squares = Raises KeyError.
Proof.
  induction squares as [| sq' rest IH]; intros Hin Hp Hk; [destruct Hin |].
  cbn [draw_pieces_loop].
  pose proof (draw_pieces_square_outcome sq') as Hsq.
  destruct (piece_at board sq') as [p' |] eqn:Ep.
  - destruct (dict_lookup_outcome IMAGES (symbol p')) as [[img Hi] | Hk'];
      [rewrite Hi in Hsq | rewrite Hk' in Hsq]; rewrite Hsq; [| reflexivity].
    cbn [obind]. destruct Hin as [-> | Hin].
    + rewrite Ep in Hp. injection Hp as ->. congruence.
    + rewrite (IH Hin Hp Hk). reflexivity.
  - rewrite Hsq. cbn [obind].
    destruct Hin as [-> | Hin]; [congruence |].
    rewrite (IH Hin Hp Hk). reflexivity.
Qed.

(** X2.  What you click is what you see: when [draw_pieces] has drawn
    an image, a click on any point of the rectangle it was drawn in
    gives, through [get_square_from_mouse] with the same orientation,
    a square of the board that holds a piece with that image. *)
Theorem click_on_drawn_piece (cmds : list (drawn Image)) (img : Image)
  (r : Rect) (pos : Z * Z)
  (drawn_ok : draw_pieces IMAGES board flip_board = Returns cmds)
  (blitted : In (Blit img r) cmds)
  (clicked : inside r pos) :
  exists p,
    In (get_square_from_mouse pos flip_board) SQUARES /\
    piece_at board (get_square_from_mouse pos flip_board) = Some p /\
    dict_lookup IMAGES (symbol p) = Returns img.
Proof.
  unfold draw_pieces in drawn_ok.
  apply (draw_pieces_loop_blits _ _ drawn_ok) in blitted
    as (sq & p & img' & Hsq & Hp & Hi & E).
  injection E as <- ->.
  rewrite (click_on_cell_of_square sq flip_board pos);
    [| apply In_SQUARES; exact Hsq | exact clicked].
  exists p. auto.
Qed.

(** X3.  Every piece on a square of the board is drawn, once the
    images are there: as an 80 x 80 image inside the window, at a
    place where every click gives its square back. *)
Theorem draw_pieces_draws_every_piece (cmds : list (drawn Image))
  (sq : Z) (p : Piece)
  (drawn_ok : draw_pieces IMAGES board flip_board = Returns cmds)
  (on_board : 0 <= sq < 64)
  (occupied : piece_at board sq = Some p) :
  exists img r,
    In (Blit img r) cmds /\
    dict_lookup IMAGES (symbol p) = Returns img /\
    rect_width r = 80 /\ rect_height r = 80 /\
    0 <= rect_left r <= WIDTH - 80 /\ 0 <= rect_top r <= HEIGHT - 80 /\
    forall pos, inside r pos -> get_square_from_mouse pos flip_board = sq.
Proof.
  pose proof drawn_ok as Hex. unfold draw_pieces in Hex.
  destruct (dict_lookup_outcome IMAGES (symbol p)) as [[img Hi] | Hk].
  - exists img, (blit_rect flip_board sq). split.
    + apply (draw_pieces_loop_blits _ _ Hex). exists sq, p, img.
      repeat split; auto. apply In_SQUARES. exact on_board.
    + split; [exact Hi |].
      destruct (square_file_rank sq on_board) as (Hf & Hr & _).
      unfold blit_rect, WIDTH, HEIGHT.
      cbn [rect_left rect_top rect_width rect_height]. rewrite SQ_SIZE_80.
      repeat split; try (destruct flip_board; lia).
      intros pos Hin. apply click_on_cell_of_square; [exact on_board |].
      rewrite SQ_SIZE_80. exact Hin.
  - rewrite (draw_pieces_loop_raises SQUARES sq p) in Hex; try discriminate; auto.
    apply In_SQUARES. exact on_board.
Qed.

(** X4.  [draw_pieces] fails only with [KeyError], and exactly when a
    square of the board holds a piece whose symbol [IMAGES] does not
    have; otherwise it returns its drawing. *)
Theorem draw_pieces_key_error :
  (draw_pieces IMAGES board flip_board = Raises KeyError <->
   exists sq p, 0 <= sq < 64 /\ piece_at board sq = Some p /\
                dict_lookup IMAGES (symbol p) = Raises KeyError) /\
  ((exists cmds, draw_pieces IMAGES board flip_board = Returns cmds) \/
   draw_pieces IMAGES board flip_board = Raises KeyError).
Proof.
  assert (Hdec : (forall sq p, In sq SQUARES -> piece_at board sq = Some p ->
                     exists img, dict_lookup IMAGES (symbol p) = Returns img) \/
                 (exists sq p, In sq SQUARES /\ piece_at board sq = Some p /\
                     dict_lookup IMAGES (symbol p) = Raises KeyError)).
  { induction SQUARES as [| sq rest IH].
    - left. intros ? ? [].
    - destruct IH as [IH | (sq' & p' & Hin & Hrest)].
      + destruct (piece_at board sq) as [p |] eqn:Ep.
        * destruct (dict_lookup_outcome IMAGES (symbol p)) as [Hi | Hk].
          -- left. intros sq' p' [<- | Hin] Hp'; [| eauto].
             rewrite Ep in Hp'. injection Hp' as <-. exact Hi.
          -- right. exists sq, p. auto using in_eq.
        * left. intros sq' p' [<- | Hin] Hp'; [congruence | eauto].
      + right. exists sq', p'. auto using in_cons. }
  unfold draw_pieces. destruct Hdec as [Hall | (sq & p & Hin & Hp & Hk)].
  - destruct (draw_pieces_loop_outcome SQUARES Hall) as [cmds E].
    split; [| left; eauto]. rewrite E. split; [discriminate |].
    intros (sq & p & Hsq & Hp & Hk). apply In_SQUARES in Hsq.
    destruct (Hall sq p Hsq Hp) as [img Hi]. congruence.
  - pose proof (draw_pieces_loop_raises SQUARES sq p Hin Hp Hk) as E.
    split; [| right; exact E]. split; [| intros _; exact E].
    intros _. exists sq, p. apply In_SQUARES in Hin. auto.
Qed.

End DrawPieces.

Lemma draw_pieces_witness_images :
  draw_pieces (RE := Toy.engine) [("P", 1%nat); ("q", 2%nat)]%string
              [Toy.bQ; Toy.wP] true
  = Returns [Blit 1%nat (mkRect 560 0 80 80); Blit 2%nat (mkRect 480 0 80 80)].
Proof. vm_compute. reflexivity. Qed.

Lemma click_on_drawn_piece_witness :
  exists p,
    In (get_square_from_mouse (500, 79) true) SQUARES /\
    piece_at (RE := Toy.engine) [Toy.bQ; Toy.wP]
             (get_square_from_mouse (500, 79) true) = Some p /\
    dict_lookup [("P", 1%nat); ("q", 2%nat)]%string (symbol p) = Returns 2%nat.
Proof.
  apply (@click_on_drawn_piece Toy.engine nat
           [("P", 1%nat); ("q", 2%nat)]%string [Toy.bQ; Toy.wP] true
           _ 2%nat (mkRect 480 0 80 80) (500, 79) draw_pieces_witness_images).
  - right. left. reflexivity.
  - unfold inside. cbn. lia.
Defined.

Lemma draw_pieces_draws_every_piece_witness :
  exists img r,
    In (Blit img r)
       [Blit 1%nat (mkRect 560 0 80 80); Blit 2%nat (mkRect 480 0 80 80)] /\
    dict_lookup [("P", 1%nat); ("q", 2%nat)]%string (symbol Toy.wP) = Returns img /\
    rect_width r = 80 /\ rect_height r = 80 /\
    0 <= rect_left r <= WIDTH - 80 /\ 0 <= rect_top r <= HEIGHT - 80 /\
    forall pos, inside r pos -> get_square_from_mouse pos true = 0.
Proof.
  apply (@draw_pieces_draws_every_piece Toy.engine nat
           [("P", 1%nat); ("q", 2%nat)]%string [Toy.bQ; Toy.wP] true
           _ 0 Toy.wP draw_pieces_witness_images).
  - lia.
  - reflexivity.
Defined.

(* ------------------------------------------------------------------ *)
(** ** [load_images] and the dictionary [IMAGES] *)

Lemma dict_lookup_set_same {V : Type} (d : list (string * V)) (k : string) (v : V) :
  dict_lookup (dict_set d k v) k = Returns v.
Proof.
  induction d as [| [k' v'] rest IH]; cbn [dict_set dict_lookup].
  - rewrite String.eqb_refl. reflexivity.
  - destruct (String.eqb k k') eqn:E; cbn [dict_lookup]; rewrite E; auto.
Qed.

Lemma dict_lookup_set_other {V : Type} (d : list (string * V))
  (k k0 : string) (v : V) :
  k0 <> k -> dict_lookup (dict_set d k v) k0 = dict_lookup d k0.
Proof.
  intros Hne. induction d as [| [k' v'] rest IH]; cbn [dict_set dict_lookup].
  - apply String.eqb_neq in Hne. rewrite Hne. reflexivity.
  - destruct (String.eqb k k') eqn:E; cbn [dict_lookup].
    + apply String.eqb_eq in E. subst k'.
      apply String.eqb_neq in Hne. rewrite Hne. reflexivity.
    + destruct (String.eqb k0 k'); auto.
Qed.

Lemma pieces_keys_NoDup : NoDup (map fst pieces).
Proof.
  unfold pieces. cbn [map fst].
  repeat (constructor; [cbn [In]; intuition discriminate |]). constructor.
Qed.

Lemma symbol_in_pieces (p : Piece) : exists f, In (symbol p, f) pieces.
Proof.
  destruct p as [[] []]; eexists; unfold pieces; cbn;
    repeat (try (left; reflexivity); right).
Qed.

Section LoadImages.
Variables Surface Image : Type.
Variable image_load : string -> option Surface.
Variable transform_scale : Surface -> Z * Z -> Image.

Lemma load_images_loop_loaded (items : list (string * string)) :
  NoDup (map fst items) ->
  forall IMAGES0 IMAGES,
    load_images_loop Surface Image image_load transform_scale items IMAGES0
      = Loaded Image IMAGES ->
    (forall k f, In (k, f) items ->
       exists s, image_load ("images/" ++ f)%string = Some s /\
                 dict_lookup IMAGES k = Returns (transform_scale s (80, 80))) /\
    (forall k, ~ In k (map fst items) ->
       dict_lookup IMAGES k = dict_lookup IMAGES0 k).
Proof.
  induction items as [| [k0 f0] rest IH]; intros Hnd IMAGES0 IMAGES H;
    cbn [load_images_loop] in H.
  - injection H as <-. split; [intros ? ? [] | reflexivity].
  - inversion Hnd as [| ? ? Hnotin Hnd']; subst.
    destruct (image_load ("images/" ++ f0)%string) as [s0 |] eqn:El;
      try discriminate.
    destruct (IH Hnd' _ _ H) as [Hin Hout]. split.
    + intros k f [E | Hk].
      * injection E as <- <-. exists s0. split; [exact El |].
        rewrite (Hout k0 Hnotin). apply dict_lookup_set_same.
      * apply Hin. exact Hk.
    + intros k Hk. cbn [map fst In] in Hk.
      rewrite Hout by tauto. apply dict_lookup_set_other. intros ->. tauto.
Qed.

Lemma load_images_loop_outcome (items : list (string * string)) :
  forall IMAGES0,
    (exists IMAGES,
        load_images_loop Surface Image image_load transform_scale items IMAGES0
          = Loaded Image IMAGES /\
        forall k f, In (k, f) items ->
                    image_load ("images/" ++ f)%string <> None) \/
    (exists k f IMAGES,
        load_images_loop Surface Image image_load transform_scale items IMAGES0
          = Load_error Image ("images/" ++ f)%string IMAGES /\
        In (k, f) items /\ image_load ("images/" ++ f)%string = None).
Proof.
  induction items as [| [k0 f0] rest IH]; intros IMAGES0; cbn [load_images_loop].
  - left. eexists. split; [reflexivity | intros ? ? []].
  - destruct (image_load ("images/" ++ f0)%string) as [s0 |] eqn:El.
    + destruct (IH (dict_set IMAGES0 k0 (transform_scale s0 (SQ_SIZE, SQ_SIZE))))
        as [(I & E & Hall) | (k & f & I & E & Hin & Hnone)].
      * left. exists I. split; [exact E |].
        intros k f [Eq | Hin]; [injection Eq as <- <-; congruence | eauto].
      * right. exists k, f, I. auto using in_cons.
    + right. exists k0, f0, IMAGES0. auto using in_eq.
Qed.

(** X5.  When [load_images] returns, [IMAGES] has an image for the
    symbol of every piece: the file of [pieces] for that symbol, loaded
    from the folder [images/] and scaled to 80 x 80; what [IMAGES] had
    under other keys is kept. *)
Theorem load_images_has_every_symbol (IMAGES0 IMAGES : list (string * Image))
  (returned : load_images Surface Image image_load transform_scale IMAGES0
              = Loaded Image IMAGES) :
  (forall p : Piece, exists f s,
      In (symbol p, f) pieces /\
      image_load ("images/" ++ f)%string = Some s /\
      dict_lookup IMAGES (symbol p) = Returns (transform_scale s (80, 80))) /\
  (forall k, ~ In k (map fst pieces) ->
             dict_lookup IMAGES k = dict_lookup IMAGES0 k).
Proof.
  destruct (load_images_loop_loaded pieces pieces_keys_NoDup _ _ returned)
    as [Hin Hout].
  split; [| exact Hout].
  intros p. destruct (symbol_in_pieces p) as [f Hf].
  destruct (Hin _ _ Hf) as (s & Hs & Hl). exists f, s. auto.
Qed.

(** X6.  [load_images] returns exactly when each of the twelve files
    of [pieces] loads; otherwise it raises with the path of a file of
    [pieces] that does not load. *)
Theorem load_images_outcome (IMAGES0 : list (string * Image)) :
  ((exists IMAGES,
       load_images Surface Image image_load transform_scale IMAGES0
         = Loaded Image IMAGES) <->
   (forall k f, In (k, f) pieces ->
                image_load ("images/" ++ f)%string <> None)) /\
  (forall path IMAGES,
      load_images Surface Image image_load transform_scale IMAGES0
        = Load_error Image path IMAGES ->
      image_load path = None /\
      exists k f, In (k, f) pieces /\ path = ("images/" ++ f)%string).
Proof.
  unfold load_images.
  destruct (load_images_loop_outcome pieces IMAGES0)
    as [(I & E & Hall) | (k & f & I & E & Hin & Hnone)]; rewrite E.
  - split; [split; eauto | discriminate].
  - split.
    + split; [intros [? ?]; discriminate |].
      intros Hall. exfalso. exact (Hall k f Hin Hnone).
    + intros path I' H. injection H as <- <-. split; [exact Hnone | eauto].
Qed.

(** X7.  After a [load_images] that returned, [draw_pieces] raises
    nothing, whatever the board and the orientation. *)
Theorem draw_pieces_after_load_images {RE : RulesEngine}
  (IMAGES0 IMAGES : list (string * Image)) (board : Board) (flip_board : bool)
  (returned : load_images Surface Image image_load transform_scale IMAGES0
              = Loaded Image IMAGES) :
  exists cmds, draw_pieces IMAGES board flip_board = Returns cmds.
Proof.
  destruct (load_images_loop_loaded pieces pieces_keys_NoDup _ _ returned)
    as [Hin _].
  unfold draw_pieces. apply draw_pieces_loop_outcome.
  intros sq p _ _. destruct (symbol_in_pieces p) as [f Hf].
  destruct (Hin _ _ Hf) as (s & _ & Hl). eauto.
Qed.

End LoadImages.

Lemma load_images_witness_run :
  exists IMAGES,
    load_images string (string * (Z * Z)) (fun path => Some path)
                (fun s size => (s, size)) [] = Loaded _ IMAGES.
Proof. eexists. vm_compute. reflexivity. Qed.

Lemma load_images_has_every_symbol_witness :
  exists IMAGES,
    dict_lookup IMAGES (symbol Toy.bQ)
      = Returns ("images/black-queen.png"%string, (80, 80)).
Proof.
  destruct load_images_witness_run as [IMAGES E]. exists IMAGES.
  destruct (load_images_has_every_symbol string (string * (Z * Z))
              (fun path => Some path) (fun s size => (s, size)) [] IMAGES E)
    as [H _].
  destruct (H Toy.bQ) as (f & s & Hf & Hs & Hl).
  injection Hs as <-. rewrite Hl. f_equal. f_equal.
  unfold pieces in Hf. cbn in Hf.
  repeat (destruct Hf as [Hf | Hf]; [try discriminate Hf |]); try contradiction.
  injection Hf as <-. reflexivity.
Defined.

Lemma draw_pieces_after_load_images_witness :
  exists IMAGES cmds,
    draw_pieces (RE := Toy.engine) (Image := string * (Z * Z))
                IMAGES [Toy.bQ; Toy.wP] false = Returns cmds.
Proof.
  destruct load_images_witness_run as [IMAGES E]. exists IMAGES.
  apply (@draw_pieces_after_load_images string (string * (Z * Z))
           (fun path => Some path) (fun s size => (s, size)) Toy.engine
           [] IMAGES [Toy.bQ; Toy.wP] false E).
Defined.

(* ------------------------------------------------------------------ *)
(** ** [draw_board] *)

Section DrawBoard.
Variable Image : Type.

Lemma In_draw_board (flip_board : bool) (selected_sq : option Z)
  (cmd : drawn Image) :
  In cmd (draw_board flip_board selected_sq) <->
  exists rank file,
    0 <= rank < 8 /\ 0 <= file < 8 /\
    In cmd (draw_board_cell flip_board selected_sq rank file).
Proof.
  unfold draw_board. rewrite in_flat_map. split.
  - intros (rank & Hr & H). apply in_flat_map in H as (file & Hf & H).
    exists rank, file. rewrite <- !In_range8. auto.
  - intros (rank & file & Hr & Hf & H). exists rank.
    split; [apply In_range8; exact Hr |].
    apply in_flat_map. exists file. split; [apply In_range8; exact Hf | exact H].
Qed.

(** X8.  [draw_board] fills the cells of the 8 x 8 grid of the window
    and nothing else, each 80 x 80, and the colour of a cell depends on
    its place in the window only, not on the orientation of the board
    nor on the selection: [DARK_COLOR] where column plus row (from the
    top left) is even, [LIGHT_COLOR] where it is odd. *)
Theorem draw_board_fills_grid (flip_board : bool) (selected_sq : option Z)
  (c : Colour) (r : Rect) :
  In (Draw_rect (Image := Image) c r 0) (draw_board flip_board selected_sq) <->
  exists cx cy,
    0 <= cx < 8 /\ 0 <= cy < 8 /\
    r = mkRect (cx * 80) (cy * 80) 80 80 /\
    c = (if (cx + cy) mod 2 =? 0 then DARK_COLOR else LIGHT_COLOR).
Proof.
  rewrite In_draw_board. split.
  - intros (rank & file & Hr & Hf & Hin).
    unfold draw_board_cell in Hin. rewrite SQ_SIZE_80 in Hin.
    destruct Hin as [E | Hin].
    + injection E as <- <-.
      exists (if negb flip_board then file else 7 - file),
             (7 - (if negb flip_board then rank else 7 - rank)).
      repeat split; try (destruct flip_board; cbn [negb]; lia).
      destruct flip_board; cbn [negb];
        destruct (Z.eqb_spec ((file + rank) mod 2) 0) as [E1 | E1];
        match goal with
        | |- context [?a mod 2 =? 0] =>
            destruct (Z.eqb_spec (a mod 2) 0) as [E2 | E2]
        end; try reflexivity; exfalso;
        revert E1 E2; Z.div_mod_to_equations; lia.
    + destruct selected_sq as [sel |]; [| destruct Hin].
      match type of Hin with
      | In _ (if ?b then _ else _) => destruct b
      end; [| destruct Hin].
      destruct Hin as [E | []]. discriminate E.
  - intros (cx & cy & Hx & Hy & -> & ->).
    exists (if flip_board then cy else 7 - cy),
           (if flip_board then 7 - cx else cx).
    split; [destruct flip_board; lia |]. split; [destruct flip_board; lia |].
    unfold draw_board_cell. rewrite SQ_SIZE_80. left.
    destruct flip_board; cbn [negb]; f_equal;
      try (f_equal; lia);
      match goal with
      | |- (if ?a mod 2 =? 0 then _ else _) = (if ?b mod 2 =? 0 then _ else _) =>
          destruct (Z.eqb_spec (a mod 2) 0) as [E1 | E1];
          destruct (Z.eqb_spec (b mod 2) 0) as [E2 | E2]
      end; try reflexivity; exfalso;
      revert E1 E2; Z.div_mod_to_equations; lia.
Qed.

(** X9.  [draw_board] outlines (width 4, [HIGHLIGHT_COLOR]) one cell
    for a selected square of the board and none without a selection.
    The cell is the one in column [square_file] and row
    [7 - square_rank] of the window for either orientation: a click on
    it is a click on the selected square when the board is not flipped,
    and on the opposite square, [63 - selected_sq], when it is. *)
Theorem draw_board_highlight (flip_board : bool) (sel : Z)
  (on_board : 0 <= sel < 64) :
  (forall c r,
      In (Draw_rect (Image := Image) c r 4) (draw_board flip_board (Some sel)) <->
      c = HIGHLIGHT_COLOR /\
      r = mkRect (square_file sel * 80) ((7 - square_rank sel) * 80) 80 80) /\
  (forall pos,
      inside (mkRect (square_file sel * 80) ((7 - square_rank sel) * 80) 80 80) pos ->
      get_square_from_mouse pos flip_board
        = (if flip_board then 63 - sel else sel)) /\
  (forall c r w, w <> 0 ->
      ~ In (Draw_rect (Image := Image) c r w) (draw_board flip_board None)).
Proof.
  destruct (square_file_rank sel on_board) as (Hf & Hr & Hsq).
  split; [| split].
  - intros c r. rewrite In_draw_board. split.
    + intros (rank & file & Hrk & Hfl & Hin).
      unfold draw_board_cell in Hin. rewrite SQ_SIZE_80 in Hin.
      destruct Hin as [E | Hin]; [discriminate E |].
      match type of Hin with
      | In _ (if ?b then _ else _) => destruct b eqn:Ecell
      end; [| destruct Hin].
      destruct Hin as [E | []].
      assert (Ec : c = HIGHLIGHT_COLOR) by congruence.
      assert (Er : r = mkRect ((if negb flip_board then file else 7 - file) * 80)
                              ((7 - (if negb flip_board then rank else 7 - rank)) * 80)
                              80 80) by congruence.
      clear E. subst c r.
      apply andb_prop in Ecell as [E1 E2].
      apply Z.eqb_eq in E1, E2. split; [reflexivity |].
      destruct flip_board; unfold negb; f_equal; lia.
    + intros [-> ->].
      exists (if flip_board then 7 - square_rank sel else square_rank sel),
             (if flip_board then 7 - square_file sel else square_file sel).
      split; [destruct flip_board; lia |]. split; [destruct flip_board; lia |].
      unfold draw_board_cell. rewrite SQ_SIZE_80. right.
      rewrite !Z.eqb_refl. cbn [andb]. left.
      destruct flip_board; cbn [negb]; f_equal; f_equal; lia.
  - intros pos Hin.
    pose proof (cell_of_point (square_file sel) (7 - square_rank sel) pos) as Hc.
    rewrite SQ_SIZE_80 in Hc. destruct (Hc Hin) as [Hx Hy].
    destruct pos as [x y]. cbn [fst snd] in *.
    unfold get_square_from_mouse. rewrite SQ_SIZE_80, Hx, Hy.
    unfold square in *. destruct flip_board; lia.
  - intros c r w Hw Hin. apply In_draw_board in Hin
      as (rank & file & _ & _ & Hin).
    unfold draw_board_cell in Hin. destruct Hin as [E | []].
    injection E as _ _ E. congruence.
Qed.

End DrawBoard.

Lemma draw_board_highlight_witness :
  In (Draw_rect (Image := unit) HIGHLIGHT_COLOR (mkRect 0 560 80 80) 4)
     (draw_board true (Some 0)) /\
  get_square_from_mouse (10, 570) true = 63.
Proof.
  destruct (draw_board_highlight unit true 0) as (H1 & H2 & _); [lia |].
  split.
  - apply H1. split; reflexivity.
  - apply (H2 (10, 570)). unfold inside. cbn. lia.
Defined.

(* ================================================================== *)
(** * Beyond the claims: the search *)

Lemma sneg_involutive (s : score) : sneg (sneg s) = s.
Proof. destruct s; unfold sneg; try reflexivity. f_equal. lia. Qed.

Lemma sneg_smax (m e : score) : sneg (smax m (sneg e)) = smin (sneg m) e.
Proof. destruct m, e; unfold smax, smin; cbn; score_crush. Qed.

Lemma sneg_smin (m e : score) : sneg (smin m (sneg e)) = smax (sneg m) e.
Proof. destruct m, e; unfold smax, smin; cbn; score_crush. Qed.

Lemma sle_sneg (a b : score) : sle (sneg a) (sneg b) = sle b a.
Proof.
  destruct a, b; cbn; try reflexivity.
  destruct (Z.leb_spec (- z) (- z0)), (Z.leb_spec z0 z); try reflexivity; lia.
Qed.

Section Duality.
Context {RE : RulesEngine}.

Lemma max_loop_dual rec rec' beta :
  (forall a bt b, rec' a bt b = negated (rec (sneg bt) (sneg a) b)) ->
  forall mvs max_eval alpha b,
    max_loop rec' beta mvs max_eval alpha b =
    negated (min_loop rec (sneg beta) mvs (sneg max_eval) (sneg alpha) b).
Proof.
  intros Hrec mvs.
  induction mvs as [| move rest IH]; intros max_eval alpha b.
  - cbn [max_loop min_loop]. unfold ret, negated. cbn [obind fst snd].
    rewrite sneg_involutive. reflexivity.
  - cbn [max_loop min_loop]. unfold bind at 1 2 4 5. unfold push_.
    rewrite Hrec.
    destruct (rec (sneg beta) (sneg alpha) (push b move)) as [[e b1] | |];
      try reflexivity.
    cbn [negated obind fst snd]. unfold bind, pop_.
    destruct (pop b1) as [b2 | |]; try reflexivity. cbn [obind].
    rewrite <- (sneg_smax alpha e), <- (sneg_smax max_eval e), sle_sneg.
    destruct (sle beta (smax alpha (sneg e))).
    + unfold ret. cbn. rewrite sneg_involutive. reflexivity.
    + apply IH.
Qed.

Lemma min_loop_dual rec rec' alpha :
  (forall a bt b, rec' a bt b = negated (rec (sneg bt) (sneg a) b)) ->
  forall mvs min_eval beta b,
    min_loop rec' alpha mvs min_eval beta b =
    negated (max_loop rec (sneg alpha) mvs (sneg min_eval) (sneg beta) b).
Proof.
  intros Hrec mvs.
  induction mvs as [| move rest IH]; intros min_eval beta b.
  - cbn [max_loop min_loop]. unfold ret, negated. cbn [obind fst snd].
    rewrite sneg_involutive. reflexivity.
  - cbn [max_loop min_loop]. unfold bind at 1 2 4 5. unfold push_.
    rewrite Hrec.
    destruct (rec (sneg beta) (sneg alpha) (push b move)) as [[e b1] | |];
      try reflexivity.
    cbn [negated obind fst snd]. unfold bind, pop_.
    destruct (pop b1) as [b2 | |]; try reflexivity. cbn [obind].
    rewrite <- (sneg_smin beta e), <- (sneg_smin min_eval e), sle_sneg.
    destruct (sle (smin beta (sneg e)) alpha).
    + unfold ret. cbn. rewrite sneg_involutive. reflexivity.
    + apply IH.
Qed.

(** X10.  The search is zero-sum: for the opposite perspective,
    [alpha_beta] gives the negated score of the search on the negated
    and swapped window, with the same board left behind and the same
    exception or exhaustion otherwise -- for every budget, depth,
    window and position. *)
Theorem alpha_beta_perspective_duality (fuel : nat) (depth : Z)
  (alpha beta : score) (c : Color) (b : Board) :
  alpha_beta fuel depth alpha beta (negb c) b =
  negated (alpha_beta fuel depth (sneg beta) (sneg alpha) c b).
Proof.
  revert depth alpha beta b.
  induction fuel as [| fuel IH]; intros depth alpha beta b;
    cbn [alpha_beta];
    destruct ((depth =? 0) || is_game_over b);
    try (unfold bind, lift, ret; rewrite !evaluate_board_material;
         cbn; rewrite material_opp; reflexivity).
  - reflexivity.
  - replace (Bool.eqb (turn b) (negb c)) with (negb (Bool.eqb (turn b) c))
      by (destruct (turn b), c; reflexivity).
    destruct (Bool.eqb (turn b) c); cbn [negb].
    + apply (min_loop_dual
               (fun a bt => alpha_beta fuel (depth - 1) a bt c)
               (fun a bt => alpha_beta fuel (depth - 1) a bt (negb c)) alpha
               (fun a bt b0 => IH (depth - 1) a bt b0)
               (legal_moves b) PosInf beta b).
    + apply (max_loop_dual
               (fun a bt => alpha_beta fuel (depth - 1) a bt c)
               (fun a bt => alpha_beta fuel (depth - 1) a bt (negb c)) beta
               (fun a bt b0 => IH (depth - 1) a bt b0)
               (legal_moves b) NegInf alpha b).
Qed.

End Duality.

(* ------------------------------------------------------------------ *)
(** ** What a call on a narrower window tells *)

(** X11.  With [undo] reversing [apply]: on any window with
    [alpha < beta], where the exhaustive search gives the value [v],
    [alpha_beta] returns a score [r] on the same side of the window
    as [v] -- at or below [alpha] together, at or above [beta]
    together -- and equal to [v] when [v] is strictly inside; the board
    is left as it was. *)
Theorem alpha_beta_window_sides {RE : RulesEngine}
  (pop_push : pop_push_law RE)
  (fuel : nat) (depth : Z) (alpha beta : score) (c : Color) (b : Board)
  (v : score) (b1 : Board)
  (open_window : slt alpha beta = true)
  (exact : minimax fuel depth c b = Returns (v, b1)) :
  exists r,
    alpha_beta fuel depth alpha beta c b = Returns (r, b) /\
    (sle v alpha = true -> sle r alpha = true) /\
    (sle beta v = true -> sle beta r = true) /\
    (slt alpha v = true -> slt v beta = true -> r = v).
Proof.
  exact (alpha_beta_agree pop_push fuel depth c alpha beta b v b1 open_window exact).
Qed.

Lemma alpha_beta_window_sides_witness :
  exists r,
    alpha_beta (RE := Toy.engine) 2 2 (Fin 0) (Fin 1) WHITE [Toy.wP]
      = Returns (r, [Toy.wP]) /\
    (sle (Fin (-5)) (Fin 0) = true -> sle r (Fin 0) = true) /\
    (sle (Fin 1) (Fin (-5)) = true -> sle (Fin 1) r = true) /\
    (slt (Fin 0) (Fin (-5)) = true -> slt (Fin (-5)) (Fin 1) = true ->
     r = Fin (-5)).
Proof.
  apply (@alpha_beta_window_sides Toy.engine toy_pop_push
           2 2 (Fin 0) (Fin 1) WHITE [Toy.wP] (Fin (-5)) [Toy.wP]).
  - reflexivity.
  - vm_compute. reflexivity.
Defined.

(* ------------------------------------------------------------------ *)
(** ** Edge cases of [get_best_move] *)

(** X12.  On a position without a legal move [get_best_move] raises
    [IndexError] (from [random.choice] of the empty list), whatever
    the depth, the perspective and the budget. *)
Theorem get_best_move_no_legal_move {RE : RulesEngine}
  (fuel rnd : nat) (depth : Z) (c : Color) (b : Board)
  (no_move : legal_moves b = []) :
  get_best_move fuel rnd depth c b = Raises IndexError.
Proof.
  unfold get_best_move, bind, best_of_loop. rewrite no_move.
  cbn [root_loop]. unfold ret. cbn [snd]. unfold lift. rewrite no_move.
  reflexivity.
Qed.

Lemma get_best_move_no_legal_move_witness :
  get_best_move (RE := Toy.engine) 5 0 3 WHITE [Toy.wP; Toy.bP; Toy.wK]
  = Raises IndexError.
Proof.
  apply (@get_best_move_no_legal_move Toy.engine 5 0 3 WHITE
           [Toy.wP; Toy.bP; Toy.wK]).
  reflexivity.
Defined.

Section MoreSearch.
Context {RE : RulesEngine}.

Lemma max_loop_ext rec1 rec2 beta :
  (forall a bt b, rec1 a bt b = rec2 a bt b) ->
  forall mvs max_eval alpha b,
    max_loop rec1 beta mvs max_eval alpha b = max_loop rec2 beta mvs max_eval alpha b.
Proof.
  intros Hrec mvs.
  induction mvs as [| move rest IH]; intros max_eval alpha b; [reflexivity |].
  cbn [max_loop]. unfold bind at 1 2 4 5. unfold push_. rewrite Hrec.
  destruct (rec2 alpha beta (push b move)) as [[e b1] | |]; try reflexivity.
  unfold bind, pop_. destruct (pop b1) as [b2 | |]; try reflexivity. cbn [obind].
  destruct (sle beta (smax alpha e)); [reflexivity | apply IH].
Qed.

Lemma min_loop_ext rec1 rec2 alpha :
  (forall a bt b, rec1 a bt b = rec2 a bt b) ->
  forall mvs min_eval beta b,
    min_loop rec1 alpha mvs min_eval beta b = min_loop rec2 alpha mvs min_eval beta b.
Proof.
  intros Hrec mvs.
  induction mvs as [| move rest IH]; intros min_eval beta b; [reflexivity |].
  cbn [min_loop]. unfold bind at 1 2 4 5. unfold push_. rewrite Hrec.
  destruct (rec2 alpha beta (push b move)) as [[e b1] | |]; try reflexivity.
  unfold bind, pop_. destruct (pop b1) as [b2 | |]; try reflexivity. cbn [obind].
  destruct (sle (smin beta e) alpha); [reflexivity | apply IH].
Qed.

Lemma root_loop_ext rec1 rec2 is_max :
  (forall b, rec1 b = rec2 b) ->
  forall mvs best_value best_move b,
    root_loop rec1 is_max mvs best_value best_move b =
    root_loop rec2 is_max mvs best_value best_move b.
Proof.
  intros Hrec mvs.
  induction mvs as [| move rest IH]; intros best_value best_move b; [reflexivity |].
  cbn [root_loop]. unfold bind at 1 2 4 5. unfold push_. rewrite Hrec.
  destruct (rec2 (push b move)) as [[e b1] | |]; try reflexivity.
  unfold bind, pop_. destruct (pop b1) as [b2 | |]; try reflexivity. cbn [obind].
  destruct (is_max && slt best_value e);
    [| destruct (negb is_max && slt e best_value)]; apply IH.
Qed.

Lemma alpha_beta_below_zero (fuel : nat) (depth depth' : Z)
  (alpha beta : score) (c : Color) (b : Board) :
  depth < 0 -> depth' < 0 ->
  alpha_beta fuel depth alpha beta c b = alpha_beta fuel depth' alpha beta c b.
Proof.
  revert depth depth' alpha beta b.
  induction fuel as [| fuel IH]; intros depth depth' alpha beta b Hd Hd';
    cbn [alpha_beta];
    destruct (Z.eqb_spec depth 0) as [E | _]; try lia;
    destruct (Z.eqb_spec depth' 0) as [E | _]; try lia;
    cbn [orb]; [reflexivity |].
  destruct (is_game_over b); [reflexivity |].
  destruct (Bool.eqb (turn b) c).
  - apply max_loop_ext. intros a bt b0. apply IH; lia.
  - apply min_loop_ext. intros a bt b0. apply IH; lia.
Qed.

(** X13.  A depth of 0 or less is no bound at all: [get_best_move]
    calls [alpha_beta] at [depth - 1], which never meets [depth == 0],
    so every depth of 0 or less gives the same search, ended only by
    game-over positions (or by the recursion budget). *)
Theorem get_best_move_depth_not_positive (fuel rnd : nat) (depth depth' : Z)
  (c : Color) (b : Board)
  (not_positive : depth <= 0) (not_positive' : depth' <= 0) :
  get_best_move fuel rnd depth c b = get_best_move fuel rnd depth' c b /\
  (forall alpha beta,
      alpha_beta fuel (depth - 1) alpha beta c b =
      alpha_beta fuel (depth' - 1) alpha beta c b).
Proof.
  split.
  - unfold get_best_move, bind, best_of_loop.
    rewrite (root_loop_ext
               (alpha_beta fuel (depth - 1) NegInf PosInf c)
               (alpha_beta fuel (depth' - 1) NegInf PosInf c)); [reflexivity |].
    intros b0. apply alpha_beta_below_zero; lia.
  - intros alpha beta. apply alpha_beta_below_zero; lia.
Qed.

End MoreSearch.

Lemma get_best_move_depth_not_positive_witness :
  get_best_move (RE := Toy.engine) 3 0 0 WHITE [] = Returns (Toy.wN, []) /\
  get_best_move (RE := Toy.engine) 3 0 (-7) WHITE [] = Returns (Toy.wN, []).
Proof.
  destruct (@get_best_move_depth_not_positive Toy.engine 3 0 0 (-7) WHITE [])
    as [H _]; [lia | lia |].
  split; [| rewrite <- H]; vm_compute; reflexivity.
Defined.

(* ------------------------------------------------------------------ *)
(** ** The move [get_best_move] returns *)

Section ReturnedMove.
Context {RE : RulesEngine}.

Lemma root_loop_move_in rec is_max :
  forall mvs best_value best_move b r b',
    root_loop rec is_max mvs best_value best_move b = Returns (r, b') ->
    snd r = best_move \/ exists m, snd r = Some m /\ In m mvs.
Proof.
  intros mvs.
  induction mvs as [| move rest IH]; intros best_value best_move b r b' H.
  - injection H as <- _. left. reflexivity.
  - cbn [root_loop] in H.
    apply push_call_pop_returns in H as (e & b1 & b2 & _ & _ & H).
    rewrite improves_branch in H.
    destruct (improves is_max e best_value);
      apply IH in H as [H | (m & Hm & Hin)].
    + right. exists move. split; [exact H | apply in_eq].
    + right. exists m. auto using in_cons.
    + left. exact H.
    + right. exists m. auto using in_cons.
Qed.

Hypothesis pop_push : pop_push_law RE.

Lemma get_best_move_returns_legal_move_aux
  (fuel rnd : nat) (depth : Z) (c : Color) (b : Board) (m : Move) (b' : Board) :
  get_best_move fuel rnd depth c b = Returns (m, b') -> In m (legal_moves b).
Proof.
  intros returned. unfold get_best_move in returned.
  apply bind_returns in returned as ([bv bm] & b1 & Hloop & H).
  pose proof (best_of_loop_restores pop_push _ _ _ _ _ _ Hloop) as ->.
  unfold best_of_loop in Hloop.
  apply root_loop_move_in in Hloop as [Hnone | (m0 & Hm0 & Hin)];
    cbn [snd] in *.
  - subst bm. unfold lift in H.
    destruct (legal_moves b) as [| x rest] eqn:El; [discriminate |].
    destruct (choice_returns rnd (x :: rest)) as (a & Ea & Hin);
      [discriminate |].
    rewrite Ea in H. injection H as <- _. exact Hin.
  - subst bm. injection H as <- _. exact Hin.
Qed.

(** X14.  With [undo] reversing [apply]: whenever [get_best_move]
    returns, the move is one of the legal moves of the board it was
    given -- from the scoring loop or from the random fallback. *)
Theorem get_best_move_returns_legal_move
  (fuel rnd : nat) (depth : Z) (c : Color) (b : Board) (m : Move) (b' : Board)
  (returned : get_best_move fuel rnd depth c b = Returns (m, b')) :
  In m (legal_moves b).
Proof.
  eapply get_best_move_returns_legal_move_aux. exact returned.
Qed.

Lemma alpha_beta_leaf_finite fuel alpha beta c :
  finite_results (fun r => r) (alpha_beta fuel (1 - 1) alpha beta c).
Proof.
  intros b r b' H. change (1 - 1) with 0 in H.
  destruct fuel; cbn [alpha_beta Z.eqb orb] in H;
    unfold bind, lift, ret in H; rewrite evaluate_board_material in H;
    injection H as <- _; eexists; reflexivity.
Qed.

Lemma alpha_beta_leaf fuel alpha beta c b :
  alpha_beta fuel (1 - 1) alpha beta c b = Returns (Fin (material b c), b).
Proof.
  change (1 - 1) with 0.
  destruct fuel; cbn [alpha_beta Z.eqb orb];
    unfold bind, lift, ret; rewrite evaluate_board_material; reflexivity.
Qed.

(** X15.  With [undo] reversing [apply]: at depth 1 [get_best_move]
    is greedy on material.  On its own turn the perspective side gets a
    legal move after which its material balance is the greatest that
    any legal move gives; on the other side's turn, one after which it
    is the least. *)
Theorem get_best_move_depth_1_greedy
  (fuel rnd : nat) (c : Color) (b : Board) (m : Move) (b' : Board)
  (returned : get_best_move fuel rnd 1 c b = Returns (m, b')) :
  In m (legal_moves b) /\
  forall m', In m' (legal_moves b) ->
    if Bool.eqb (turn b) c
    then material (push b m') c <= material (push b m) c
    else material (push b m) c <= material (push b m') c.
Proof.
  split; [eapply get_best_move_returns_legal_move_aux; eassumption |].
  unfold get_best_move in returned.
  apply bind_returns in returned as ([bv bm] & b1 & Hloop & H).
  unfold best_of_loop in Hloop.
  apply (root_loop_selected pop_push _ _ b
           (alpha_beta_restores pop_push _ _ _ _ _)
           (alpha_beta_leaf_finite fuel NegInf PosInf c)
           (legal_moves b) [] _ _ _ _ (incl_refl _)) in Hloop as [Hsel ->];
    [| split; reflexivity].
  cbn [fst snd app] in *. destruct bm as [best |]; cbn [selected] in Hsel.
  - injection H as <- _.
    destruct Hsel as (pre & post & E & Em & _ & Hpre & Hpost).
    rewrite alpha_beta_leaf in Em. injection Em as <-.
    intros m' Hin. rewrite E in Hin.
    apply in_app_or in Hin as [Hin | [<- | Hin]].
    + rewrite Forall_forall in Hpre.
      destruct (Hpre m' Hin) as (s' & Es & Hs).
      rewrite alpha_beta_leaf in Es. injection Es as <-.
      unfold improves in Hs. destruct (Bool.eqb (turn b) c);
        cbn [slt] in Hs; apply Z.ltb_lt in Hs; lia.
    + destruct (Bool.eqb (turn b) c); lia.
    + rewrite Forall_forall in Hpost.
      destruct (Hpost m' Hin) as (s' & Es & Hs).
      rewrite alpha_beta_leaf in Es. injection Es as <-.
      unfold improves in Hs. destruct (Bool.eqb (turn b) c);
        cbn [slt] in Hs; apply Z.ltb_ge in Hs; lia.
  - destruct Hsel as [E _]. unfold lift in H. rewrite E in H. discriminate.
Qed.

End ReturnedMove.

Lemma get_best_move_returns_legal_move_witness :
  In Toy.bQ (legal_moves (RulesEngine := Toy.engine) [Toy.wP]).
Proof.
  apply (@get_best_move_returns_legal_move Toy.engine toy_pop_push
           3 7 3 BLACK [Toy.wP] Toy.bQ [Toy.wP]).
  vm_compute. reflexivity.
Defined.

Lemma get_best_move_depth_1_greedy_witness :
  In Toy.bQ (legal_moves (RulesEngine := Toy.engine) [Toy.wP]) /\
  forall m', In m' (legal_moves (RulesEngine := Toy.engine) [Toy.wP]) ->
    if Bool.eqb (turn (RulesEngine := Toy.engine) [Toy.wP]) WHITE
    then material (RE := Toy.engine) (m' :: [Toy.wP]) WHITE
         <= material (RE := Toy.engine) (Toy.bQ :: [Toy.wP]) WHITE
    else material (RE := Toy.engine) (Toy.bQ :: [Toy.wP]) WHITE
         <= material (RE := Toy.engine) (m' :: [Toy.wP]) WHITE.
Proof.
  apply (@get_best_move_depth_1_greedy Toy.engine toy_pop_push
           0 4 WHITE [Toy.wP] Toy.bQ [Toy.wP]).
  vm_compute. reflexivity.
Defined.

(* ------------------------------------------------------------------ *)
(** ** Bounds of the evaluation *)

Lemma signed_weight_bound (c : Color) (p : Piece) :
  - 9 <= signed_weight c p <= 9.
Proof.
  unfold signed_weight, weight.
  destruct (Bool.eqb (color p) c), (piece_type p); lia.
Qed.

(** X16.  The evaluation is bounded by the number of pieces: between
    [-9 n] and [9 n] on a board of [n] pieces, so 0 on the empty
    board; and it never raises. *)
Theorem evaluate_board_bounded {RE : RulesEngine} (b : Board) (c : Color) :
  exists v,
    evaluate_board b c = Returns v /\
    - 9 * Z.of_nat (List.length (piece_map b)) <= v
      <= 9 * Z.of_nat (List.length (piece_map b)).
Proof.
  exists (material b c). split; [apply evaluate_board_material |].
  unfold material. induction (piece_map b) as [| it rest IH].
  - cbn. lia.
  - cbn [fold_right List.length].
    pose proof (signed_weight_bound c (snd it)). lia.
Qed.

(* ================================================================== *)
(** * Beyond the claims: the game loop *)

Section GameFacts.
Context {RE : RulesEngine}.
Variable Image : Type.
Variable Move_ : Z -> Z -> Move.
Variable move_eqb : Move -> Move -> bool.


Lemma ai_events_no_quit (events : list event) :
  ai_events events = true <-> ~ In QUIT events.
Proof.
  induction events as [| [| pos |] rest IH]; cbn [ai_events In].
  - split; [intros _ [] | reflexivity].
  - split; [discriminate | intros H; exfalso; apply H; left; reflexivity].
  - rewrite IH. split; [intros H [E | Hin]; [discriminate | auto] | tauto].
  - rewrite IH. split; [intros H [E | Hin]; [discriminate | auto] | tauto].
Qed.

Lemma human_turn_not_ai (board : Board) (human_is_white : bool) :
  human_turn board human_is_white
  = negb (Bool.eqb (turn board) (if human_is_white then BLACK else WHITE)).
Proof.
  unfold human_turn, WHITE, BLACK. destruct (turn board), human_is_white; reflexivity.
Qed.

(** X17.  The two sides never act in the same pass: the engine moves
    exactly when the side to move is its colour, the opposite of the
    human's; and on the engine's turn the mouse is ignored -- a pass
    without [QUIT] goes as a pass without events. *)
Theorem main_pass_ai_turn_ignores_clicks (IMAGES : list (string * Image))
  (human_is_white : bool) (fuel rnd : nat) (events : list event)
  (board : Board) (selected_sq : option Z)
  (ai_to_move : turn board = (if human_is_white then BLACK else WHITE))
  (no_quit : ~ In QUIT events) :
  human_turn board human_is_white = false /\
  main_pass Image Move_ move_eqb IMAGES human_is_white fuel rnd events board selected_sq =
  main_pass Image Move_ move_eqb IMAGES human_is_white fuel rnd [] board selected_sq.
Proof.
  assert (Hturn : human_turn board human_is_white = false).
  { rewrite human_turn_not_ai, ai_to_move.
    destruct human_is_white; reflexivity. }
  split; [exact Hturn |].
  unfold main_pass. rewrite Hturn.
  apply ai_events_no_quit in no_quit. rewrite no_quit. reflexivity.
Qed.

(** *** The drawing at the end of a pass *)

Variable IMAGES : list (string * Image).
Hypothesis images_ok :
  forall p : Piece, exists img, dict_lookup IMAGES (symbol p) = Returns img.

Lemma end_of_pass_continues (flip_board : bool) (board : Board)
  (selected_sq : option Z) (out : list (shown Image)) :
  exists frame,
    end_of_pass Image IMAGES flip_board board selected_sq out =
    Continues Image (negb (is_game_over board)) board selected_sq
      (out ++ [Frame Image frame] ++
       (if is_game_over board then [Print_game_over Image board] else [])).
Proof.
  unfold end_of_pass.
  destruct (draw_pieces_loop_outcome IMAGES board flip_board SQUARES) as [cmds E].
  { intros sq p _ _. apply images_ok. }
  unfold draw_pieces. rewrite E.
  exists (draw_board flip_board selected_sq ++ cmds).
  destruct (is_game_over board); cbn [negb].
  - rewrite <- app_assoc. reflexivity.
  - rewrite app_nil_r. reflexivity.
Qed.

(** *** The engine's pass *)

Hypothesis pop_push : pop_push_law RE.

Lemma search_depth_total (fuel rnd : nat) (c : Color) (board : Board) :
  (2 <= fuel)%nat -> legal_moves board <> [] ->
  exists m, get_best_move fuel rnd SEARCH_DEPTH c board = Returns (m, board) /\
            In m (legal_moves board).
Proof.
  intros Hfuel Hne.
  destruct (get_best_move_total pop_push fuel rnd SEARCH_DEPTH c board)
    as [m E]; [unfold SEARCH_DEPTH; lia | exact Hne |].
  exists m. split; [exact E |].
  eapply get_best_move_returns_legal_move_aux; eauto.
Qed.

Hypothesis moves : moves_law RE.

(** X18.  The engine's pass.  With the laws of the rules engine, the
    images loaded and a budget of at least 2 for the depth of 3: on
    the engine's turn, on a position that is not game-over and without
    [QUIT], the pass pushes the move [get_best_move] returns for the
    engine's colour -- a legal move of the board --, prints it, draws
    one frame, leaves the selection alone, and stops the loop exactly
    when the new position is game-over. *)
Theorem main_pass_ai_reply (human_is_white : bool) (fuel rnd : nat)
  (events : list event) (board : Board) (selected_sq : option Z)
  (budget : (2 <= fuel)%nat)
  (not_over : is_game_over board = false)
  (ai_to_move : turn board = (if human_is_white then BLACK else WHITE))
  (no_quit : ~ In QUIT events) :
  exists m frame,
    In m (legal_moves board) /\
    get_best_move fuel rnd 3 (if human_is_white then BLACK else WHITE) board
      = Returns (m, board) /\
    main_pass Image Move_ move_eqb IMAGES human_is_white fuel rnd events board selected_sq =
    Continues Image (negb (is_game_over (push board m))) (push board m)
      selected_sq
      ([Print_AI_played Image m; Frame Image frame] ++
       (if is_game_over (push board m)
        then [Print_game_over Image (push board m)] else [])).
Proof.
  destruct (search_depth_total fuel rnd
              (if human_is_white then BLACK else WHITE) board budget
              (moves board not_over)) as (m & E & Hin).
  destruct (end_of_pass_continues (negb human_is_white) (push board m)
              selected_sq [Print_AI_played Image m]) as [frame Eend].
  exists m, frame. split; [exact Hin |]. split; [exact E |].
  unfold main_pass. rewrite human_turn_not_ai, ai_to_move.
  replace (Bool.eqb _ _) with true by (destruct human_is_white; reflexivity).
  cbn [negb]. apply ai_events_no_quit in no_quit. rewrite no_quit.
  rewrite E. exact Eend.
Qed.

(** *** Only legal moves are played *)

Hypothesis move_eqb_sound : forall x y : Move, move_eqb x y = true -> x = y.







(** *** The loop does not fail *)



End GameFacts.



Lemma toy_images_ok (p : Piece) :
  exists img, dict_lookup toy_IMAGES (symbol p) = Returns img.
Proof. destruct p as [[] []]; eexists; reflexivity. Qed.


Lemma main_pass_ai_turn_ignores_clicks_witness :
  human_turn (RE := Toy.engine) [Toy.wP] true = false /\
  main_pass (RE := Toy.engine) nat toy_Move_ toy_move_eqb toy_IMAGES true 2 0
            [MOUSEBUTTONDOWN (5, 600); Other_event] [Toy.wP] None =
  main_pass (RE := Toy.engine) nat toy_Move_ toy_move_eqb toy_IMAGES true 2 0
            [] [Toy.wP] None.
Proof.
  apply (@main_pass_ai_turn_ignores_clicks Toy.engine nat toy_Move_ toy_move_eqb
           toy_IMAGES true 2 0 [MOUSEBUTTONDOWN (5, 600); Other_event]
           [Toy.wP] None).
  - reflexivity.
  - intros [H | [H | []]]; discriminate H.
Defined.

Lemma main_pass_ai_reply_witness :
  exists m frame,
    In m (legal_moves (RulesEngine := Toy.engine) [Toy.wP]) /\
    get_best_move (RE := Toy.engine) 2 0 3 BLACK [Toy.wP] = Returns (m, [Toy.wP]) /\
    main_pass (RE := Toy.engine) nat toy_Move_ toy_move_eqb toy_IMAGES true 2 0
              [MOUSEBUTTONDOWN (5, 600)] [Toy.wP] None =
    Continues nat
      (negb (is_game_over (push (RulesEngine := Toy.engine) [Toy.wP] m)))
      (push (RulesEngine := Toy.engine) [Toy.wP] m) None
      ([Print_AI_played nat m; Frame nat frame] ++
       (if is_game_over (push (RulesEngine := Toy.engine) [Toy.wP] m)
        then [Print_game_over nat (push (RulesEngine := Toy.engine) [Toy.wP] m)]
        else [])).
Proof.
  apply (@main_pass_ai_reply Toy.engine nat toy_Move_ toy_move_eqb
           toy_IMAGES toy_images_ok toy_pop_push toy_moves
           true 2 0 [MOUSEBUTTONDOWN (5, 600)] [Toy.wP] None).
  - lia.
  - reflexivity.
  - reflexivity.
  - intros [H | []]; discriminate H.
Defined.


(* ------------------------------------------------------------------ *)
(** ** The selection *)

Section Selection.
Context {RE : RulesEngine}.
Variable Image : Type.
Variable Move_ : Z -> Z -> Move.
Variable move_eqb : Move -> Move -> bool.



End Selection.

